(** * Methods and interfaces of the [methods] package

    A shallow embedding of [methods/methods-introduction.go] and
    [methods/methods-interfaces.go], and the properties of their
    receivers, interface dispatch and console output.

    Modelling decisions.
    - [float64] is the kernel's binary64 type: [x * y], [x + y], [x / y],
      [- x], [x < y] and [math.Sqrt] are the IEEE 754 operations, with one
      NaN. Go lets a compiler fuse [x*y + z] into one operation with a single
      rounding: a [Build] says whether the sum of squares of the magnitude
      is rounded operation by operation or has one of its products fused
      into the addition, and the properties of the magnitude are proved for
      every build. A build evaluates the three occurrences of the expression
      the same way. The scalings only multiply, so no build changes them.
    - Variables whose address is taken, and the copies a value receiver or a
      value parameter works on, are cells of a typed store; a pointer is
      [nil] or the address of a cell.
    - A run-time panic is an outcome of its own: the package has no
      [recover], so a panic ends the run.
    - Console output is the text written so far. *)

From Stdlib Require Import ZArith Reals Lra Lia Floats Ascii String.
From stdpp Require Import gmap strings pretty.

Local Open Scope float_scope.

(** ** Data *)

Definition float64 : Set := PrimFloat.float.
Bind Scope float_scope with float64.

(** [type Vertex struct { X, Y float64 }] *)
Record Vertex : Set := mkVertex { Vertex_X : float64; Vertex_Y : float64 }.

(** [type Coordinate struct { X, Y float64 }] *)
Record Coordinate : Set := mkCoordinate { Coordinate_X : float64; Coordinate_Y : float64 }.

(** [type MyFloat float64]: a defined type, distinct from [float64];
    [MyFloat(x)] is the constructor and [float64(f)] the projection. *)
Record MyFloat : Set := MkMyFloat { MyFloat_float64 : float64 }.

(** [type MyCustomFloat float64] *)
Record MyCustomFloat : Set := MkMyCustomFloat { MyCustomFloat_float64 : float64 }.

(** Assignment to one field of a struct value. *)
Definition Vertex_set_X (x : float64) (v : Vertex) : Vertex := mkVertex x (Vertex_Y v).
Definition Vertex_set_Y (y : float64) (v : Vertex) : Vertex := mkVertex (Vertex_X v) y.
Definition Coordinate_set_X (x : float64) (v : Coordinate) : Coordinate :=
  mkCoordinate x (Coordinate_Y v).
Definition Coordinate_set_Y (y : float64) (v : Coordinate) : Coordinate :=
  mkCoordinate (Coordinate_X v) y.

(** ** Store, pointers and outcomes *)

Definition loc : Set := positive.

(** A [*T]: [nil] or the address of a [T] cell. *)
Inductive ptr (T : Type) : Set :=
  | nil : ptr T
  | addr : loc -> ptr T.
Arguments nil {T}.
Arguments addr {T} l.

Record mem : Type := mkMem {
  vertices : gmap loc Vertex;
  coordinates : gmap loc Coordinate;
  stdout : string
}.

(** What ends a run: Go's "invalid memory address or nil pointer
    dereference", raised by a field access through a nil pointer and by a
    method call on a nil interface. [Unallocated] is the access of a cell
    that does not exist, which no Go program performs. *)
Inductive fault : Set :=
  | NilDereference : fault
  | Unallocated : loc -> fault.

Inductive result (A : Type) : Type :=
  | Ok : A -> mem -> result A
  | Panic : fault -> mem -> result A.
Arguments Ok {A} a m.
Arguments Panic {A} e m.

Definition M (A : Type) : Type := mem -> result A.

#[export] Instance M_ret : MRet M := fun A a m => Ok a m.
#[export] Instance M_bind : MBind M := fun A B k c m =>
  match c m with
  | Ok a m' => k a m'
  | Panic e m' => Panic e m'
  end.

Definition panic {A : Type} (e : fault) : M A := fun m => Panic e m.

(** The cells of each struct type. *)
Class Heap (T : Type) : Type := {
  heap : mem -> gmap loc T;
  set_heap : gmap loc T -> mem -> mem
}.

#[export] Instance Vertex_Heap : Heap Vertex := {|
  heap := vertices;
  set_heap h m := mkMem h (coordinates m) (stdout m)
|}.

#[export] Instance Coordinate_Heap : Heap Coordinate := {|
  heap := coordinates;
  set_heap h m := mkMem (vertices m) h (stdout m)
|}.

(** [*p] read. *)
Definition deref {T : Type} `{Heap T} (p : ptr T) : M T := fun m =>
  match p with
  | nil => Panic NilDereference m
  | addr l =>
      match heap m !! l with
      | Some v => Ok v m
      | None => Panic (Unallocated l) m
      end
  end.

(** [*p = v]. *)
Definition assign {T : Type} `{Heap T} (p : ptr T) (v : T) : M unit := fun m =>
  match p with
  | nil => Panic NilDereference m
  | addr l =>
      match heap m !! l with
      | Some _ => Ok tt (set_heap (<[l := v]> (heap m)) m)
      | None => Panic (Unallocated l) m
      end
  end.

(** A new variable holding [v]; its address is returned. *)
Definition alloc {T : Type} `{Heap T} (v : T) : M (ptr T) := fun m =>
  let l := fresh (dom (heap m)) in
  Ok (addr l) (set_heap (<[l := v]> (heap m)) m).

(** The end of a variable's life. *)
Definition free {T : Type} `{Heap T} (p : ptr T) : M unit := fun m =>
  match p with
  | nil => Ok tt m
  | addr l => Ok tt (set_heap (delete l (heap m)) m)
  end.

(** A variable initialised to [v], alive while [body] runs; [body] is
    given its address. *)
Definition with_local {T A : Type} `{Heap T} (v : T) (body : ptr T -> M A) : M A :=
  p ← alloc v; r ← body p; free p;; mret r.

(** [os.Stdout.Write]. *)
Definition write (s : string) : M unit := fun m =>
  Ok tt (mkMem (vertices m) (coordinates m) (stdout m +:+ s)).

Definition newline : string := String "010"%char EmptyString.

Definition join_spaces (l : list string) : string :=
  match l with
  | [] => ""
  | s :: l => foldl (fun acc t => acc +:+ " " +:+ t) s l
  end.

(** The line [fmt.Println] makes of its operands: spaces between them, a
    newline after. *)
Definition line (operands : list string) : string :=
  join_spaces operands +:+ newline.

(** [fmt.Println], on operands already rendered with [%v] (a string
    operand renders as itself). *)
Definition Println (operands : list string) : M unit :=
  write (line operands).

(** How [%v] renders a struct: its fields between braces. *)
Definition braces (fields : list string) : string :=
  "{" +:+ join_spaces fields +:+ "}".

(** ** Builds: how [x*x + y*y] is evaluated

    The Go specification allows an implementation to combine a product and
    a sum into one fused operation that rounds once (the arm64 and
    GOAMD64=v3 compilers do). The three evaluations of [x*x + y*y] it
    allows: every operation rounded, the first product fused into the
    addition, the second product fused into the addition. *)

Inductive fusion : Set :=
  | Unfused : fusion
  | FusedFirst : fusion
  | FusedSecond : fusion.

(** The build of the program: the evaluation its compiler chose. *)
Class Build : Set := fused : fusion.

(** IEEE 754 fusedMultiplyAdd on the specification of floats: [x * y + z]
    with the product kept exact and one rounding at the end. *)
Definition SFfma (x y z : spec_float) : spec_float :=
  match x, y with
  | S754_finite sx mx ex, S754_finite sy my ey =>
      match z with
      | S754_zero _ => binary_round prec emax (xorb sx sy) (mx * my) (ex + ey)
      | _ => SFadd prec emax (S754_finite (xorb sx sy) (mx * my) (ex + ey)) z
      end
  | _, _ => SFadd prec emax (SFmul prec emax x y) z
  end.

(** The fused multiply-add instruction on [float64]. *)
Definition fma (x y z : float64) : float64 :=
  SF2Prim (SFfma (Prim2SF x) (Prim2SF y) (Prim2SF z)).

(** The expression [x*x + y*y] as the build evaluates it. *)
Definition sum_of_squares {B : Build} (x y : float64) : float64 :=
  match fused with
  | Unfused => x * x + y * y
  | FusedFirst => fma x x (y * y)
  | FusedSecond => fma y y (x * x)
  end.

(** ** methods-introduction.go *)

(** [func (v Vertex) Absolute() float64] *)
Definition Vertex_Absolute {B : Build} (v : Vertex) : float64 :=
  PrimFloat.sqrt (sum_of_squares (Vertex_X v) (Vertex_Y v)).

(** [func AbsoluteFunction(v Vertex) float64] *)
Definition AbsoluteFunction {B : Build} (v : Vertex) : float64 :=
  PrimFloat.sqrt (sum_of_squares (Vertex_X v) (Vertex_Y v)).

(** [func (f MyCustomFloat) Abs() float64] *)
Definition MyCustomFloat_Abs (f : MyCustomFloat) : float64 :=
  if MyCustomFloat_float64 f <? 0
  then MyCustomFloat_float64 (MkMyCustomFloat (- MyCustomFloat_float64 f))
  else MyCustomFloat_float64 f.

(** [func (v Vertex) ScaleWithValue(f float64)]: the receiver is a variable
    of the call, initialised with a copy of the caller's value. *)
Definition Vertex_ScaleWithValue (v0 : Vertex) (f : float64) : M unit :=
  with_local v0 (fun v =>
    s ← deref v; assign v (Vertex_set_X (Vertex_X s * f) s);;
    s ← deref v; assign v (Vertex_set_Y (Vertex_Y s * f) s)).

(** [func (v *Vertex) ScaleWithPointer(f float64)] *)
Definition Vertex_ScaleWithPointer (v : ptr Vertex) (f : float64) : M unit :=
  s ← deref v; assign v (Vertex_set_X (Vertex_X s * f) s);;
  s ← deref v; assign v (Vertex_set_Y (Vertex_Y s * f) s).

(** [func ScaleWithValueFunction(v Vertex, f float64)] *)
Definition ScaleWithValueFunction (v0 : Vertex) (f : float64) : M unit :=
  with_local v0 (fun v =>
    s ← deref v; assign v (Vertex_set_X (Vertex_X s * f) s);;
    s ← deref v; assign v (Vertex_set_Y (Vertex_Y s * f) s)).

(** [func ScaleWithPointerFunction(v *Vertex, f float64)] *)
Definition ScaleWithPointerFunction (v : ptr Vertex) (f : float64) : M unit :=
  s ← deref v; assign v (Vertex_set_X (Vertex_X s * f) s);;
  s ← deref v; assign v (Vertex_set_Y (Vertex_Y s * f) s).

(** ** methods-interfaces.go *)

(** [func (v *Coordinate) Abs() float64] *)
Definition Coordinate_Abs {B : Build} (v : ptr Coordinate) : M float64 :=
  match v with
  | nil => Println ["<nil>"];; mret 0
  | addr _ =>
      s ← deref v;
      mret (PrimFloat.sqrt (sum_of_squares (Coordinate_X s) (Coordinate_Y s)))
  end.

(** [func (v *Coordinate) Scale(f float64)] *)
Definition Coordinate_Scale (v : ptr Coordinate) (f : float64) : M unit :=
  s ← deref v; assign v (Coordinate_set_X (Coordinate_X s * f) s);;
  s ← deref v; assign v (Coordinate_set_Y (Coordinate_Y s * f) s).

(** [func (f MyFloat) Abs() float64] *)
Definition MyFloat_Abs (f : MyFloat) : float64 :=
  if MyFloat_float64 f <? 0
  then MyFloat_float64 (MkMyFloat (- MyFloat_float64 f))
  else MyFloat_float64 f.

(** ** Run-time values and interfaces *)

(** What [fmt] sees of an operand through reflection. *)
#[warnings="-register-all"]
Inductive rvalue : Type :=
  | RNil : rvalue
  | RInt : Z -> rvalue
  | RString : string -> rvalue
  | RFloat64 : float64 -> rvalue
  | RStruct : list rvalue -> rvalue
  | RPointerToStruct : list rvalue -> rvalue.

(** A concrete type as the run time knows it: the label [%T] prints and
    the value [%v] prints. *)
Class GoType (T : Type) : Type := {
  type_label : string;
  reflect : T -> M rvalue
}.
Arguments type_label T {_}.

(** Go's [int]. *)
#[export] Instance int_GoType : GoType Z := {|
  type_label := "int";
  reflect z := mret (RInt z)
|}.

#[export] Instance string_GoType : GoType string := {|
  type_label := "string";
  reflect s := mret (RString s)
|}.

#[export] Instance float64_GoType : GoType float64 := {|
  type_label := "float64";
  reflect f := mret (RFloat64 f)
|}.

#[export] Instance MyFloat_GoType : GoType MyFloat := {|
  type_label := "methods.MyFloat";
  reflect f := mret (RFloat64 (MyFloat_float64 f))
|}.

#[export] Instance MyCustomFloat_GoType : GoType MyCustomFloat := {|
  type_label := "methods.MyCustomFloat";
  reflect f := mret (RFloat64 (MyCustomFloat_float64 f))
|}.

#[export] Instance Vertex_GoType : GoType Vertex := {|
  type_label := "methods.Vertex";
  reflect v := mret (RStruct [RFloat64 (Vertex_X v); RFloat64 (Vertex_Y v)])
|}.

#[export] Instance Coordinate_GoType : GoType Coordinate := {|
  type_label := "methods.Coordinate";
  reflect v := mret (RStruct [RFloat64 (Coordinate_X v); RFloat64 (Coordinate_Y v)])
|}.

#[export] Instance ptr_Coordinate_GoType : GoType (ptr Coordinate) := {|
  type_label := "*methods.Coordinate";
  reflect p :=
    match p with
    | nil => mret RNil
    | addr _ =>
        s ← deref p;
        mret (RPointerToStruct [RFloat64 (Coordinate_X s); RFloat64 (Coordinate_Y s)])
    end
|}.

(** [type Absoluteness interface { Abs() float64 }]: a type satisfies it by
    having the method, with no declaration. *)
Class Absoluteness (T : Type) : Type := Abs : T -> M float64.

#[export] Instance MyFloat_Absoluteness : Absoluteness MyFloat :=
  fun f => mret (MyFloat_Abs f).

#[export] Instance MyCustomFloat_Absoluteness : Absoluteness MyCustomFloat :=
  fun f => mret (MyCustomFloat_Abs f).

#[export] Instance ptr_Coordinate_Absoluteness {B : Build} : Absoluteness (ptr Coordinate) :=
  Coordinate_Abs.

(** A non-nil value of type [Absoluteness]: a concrete type, its method and
    a value of it. *)
Record Absoluteness_value : Type := MkAbsoluteness {
  dyn_type : Type;
  dyn_GoType : GoType dyn_type;
  dyn_Absoluteness : Absoluteness dyn_type;
  dyn_value : dyn_type
}.

(** A variable of type [Absoluteness]: [None] is the nil interface, which
    holds neither value nor type. *)
Definition Absoluteness_iface : Type := option Absoluteness_value.

(** The conversion of an assignment [a = v]. *)
Definition to_Absoluteness {T : Type} `{GoType T} `{Absoluteness T} (v : T) : Absoluteness_iface :=
  Some (MkAbsoluteness T _ _ v).

(** [i.Abs()] on an interface value: the method of the concrete type runs;
    on the nil interface there is none to run. *)
Definition Absoluteness_Abs (i : Absoluteness_iface) : M float64 :=
  match i with
  | None => panic NilDereference
  | Some d => @Abs (dyn_type d) (dyn_Absoluteness d) (dyn_value d)
  end.

(** A non-nil value of type [interface{}]. *)
Record any_value : Type := MkAny {
  any_type : Type;
  any_GoType : GoType any_type;
  any_val : any_type
}.

Definition any_iface : Type := option any_value.

Definition to_any {T : Type} `{GoType T} (v : T) : any_iface := Some (MkAny T _ v).

(** The label and the value of an interface operand of [fmt]. *)
Definition Absoluteness_operand (i : Absoluteness_iface) : M (rvalue * string) :=
  match i with
  | None => mret (RNil, "<nil>")
  | Some d =>
      r ← @reflect (dyn_type d) (dyn_GoType d) (dyn_value d);
      mret (r, @type_label (dyn_type d) (dyn_GoType d))
  end.

Definition any_operand (i : any_iface) : M (rvalue * string) :=
  match i with
  | None => mret (RNil, "<nil>")
  | Some d =>
      r ← @reflect (any_type d) (any_GoType d) (any_val d);
      mret (r, @type_label (any_type d) (any_GoType d))
  end.

Section Fmt.

(** The [%v] rendering of a [float64] (strconv's shortest form), which
    the package takes from the standard library. *)
Variable fmt_float64 : float64 -> string.

(** [%v] *)
Fixpoint fmt_v (r : rvalue) : string :=
  match r with
  | RNil => "<nil>"
  | RInt z => pretty z
  | RString s => s
  | RFloat64 f => fmt_float64 f
  | RStruct fields => braces (map fmt_v fields)
  | RPointerToStruct fields => "&" +:+ braces (map fmt_v fields)
  end.

(** An operand of [Println]. *)
Definition Sprint {T : Type} `{GoType T} (v : T) : M string :=
  r ← reflect v; mret (fmt_v r).

(** [fmt.Printf("(%v, %T)\n", i, i)] *)
Definition Printf_v_T (operand : rvalue * string) : M unit :=
  write ("(" +:+ fmt_v operand.1 +:+ ", " +:+ operand.2 +:+ ")" +:+ newline).

(** [func Describe(i Absoluteness)] *)
Definition Describe (i : Absoluteness_iface) : M unit :=
  o ← Absoluteness_operand i; Printf_v_T o.

(** [func DescribeGeneric(i interface{})] *)
Definition DescribeGeneric (i : any_iface) : M unit :=
  o ← any_operand i; Printf_v_T o.

(** [func DemoImplementationMethodsAndInterface()] *)
Definition DemoImplementationMethodsAndInterface {B : Build} : M unit :=
  let a : Absoluteness_iface := None in
  let myFloat := MkMyFloat (- PrimFloat.sqrt 2) in
  with_local (mkCoordinate (-3) (-4)) (fun myCoordinate =>
    let a := to_Absoluteness myFloat in
    x ← Absoluteness_Abs a; s ← Sprint x;
    Println ["Abs method called on MyFloat:"; s];;
    Describe a;;
    let a := to_Absoluteness myCoordinate in
    x ← Absoluteness_Abs a; s ← Sprint x;
    Println ["Abs method called on Coordinate:"; s];;
    Describe a;;
    let b : ptr Coordinate := nil in
    Describe (to_Absoluteness b);;
    Coordinate_Abs b;;
    let i : any_iface := None in
    DescribeGeneric i;;
    let i := to_any 42%Z in
    DescribeGeneric i;;
    let i := to_any "hello" in
    DescribeGeneric i).

(** Lines 100 to 102 of methods-interfaces.go, which the source keeps in
    a comment ("Check by uncommenting the following lines"):
    [var c Absoluteness; Describe(c); c.Abs()]. *)
Definition nil_interface_call : M float64 :=
  let c : Absoluteness_iface := None in
  Describe c;;
  Absoluteness_Abs c.

(** [func DemoImplementationMethodsIntroduction()] *)
Definition DemoImplementationMethodsIntroduction {B : Build} : M unit :=
  with_local (mkVertex 3 4) (fun v1 =>
    v ← deref v1; s ← Sprint (Vertex_Absolute v);
    Println ["Method call (v1):"; s];;
    v ← deref v1; s ← Sprint (AbsoluteFunction v);
    Println ["Function call (v1):"; s];;
    let myCustomFloat := MkMyCustomFloat (-10) in
    s ← Sprint (MyCustomFloat_Abs myCustomFloat);
    Println ["Abs method call (v1):"; s];;
    v ← deref v1; Vertex_ScaleWithValue v 10;;
    v ← deref v1; s1 ← Sprint v; s2 ← Sprint (Vertex_Absolute v);
    Println ["Value receiver method call (v1):"; s1; s2];;
    Vertex_ScaleWithPointer v1 10;;
    v ← deref v1; s1 ← Sprint v; s2 ← Sprint (Vertex_Absolute v);
    Println ["Pointer receiver method call (v1):"; s1; s2];;
    assign v1 (mkVertex 3 4);;
    v ← deref v1; ScaleWithValueFunction v 10;;
    v ← deref v1; s1 ← Sprint v; s2 ← Sprint (Vertex_Absolute v);
    Println ["Function call with value (v1):"; s1; s2];;
    ScaleWithPointerFunction v1 10;;
    v ← deref v1; s1 ← Sprint v; s2 ← Sprint (Vertex_Absolute v);
    Println ["Function call with pointer (v1):"; s1; s2];;
    with_local (mkVertex 3 4) (fun v2 =>
      let p2 := v2 in
      ScaleWithPointerFunction v2 2;;
      v ← deref v2; s ← Sprint v;
      Println ["Function call with pointer (v2):"; s];;
      ScaleWithPointerFunction p2 2;;
      v ← deref v2; s ← Sprint v;
      Println ["Function call with pointer (p2):"; s];;
      Vertex_ScaleWithPointer v2 2;;
      v ← deref v2; s ← Sprint v;
      Println ["Pointer receiver method call (v2):"; s];;
      Vertex_ScaleWithPointer p2 2;;
      v ← deref v2; s ← Sprint v;
      Println ["Pointer receiver method call (p2):"; s];;
      with_local (mkVertex 3 4) (fun v3 =>
        let p3 := v3 in
        v ← deref v3; ScaleWithValueFunction v 3;;
        v ← deref v3; s ← Sprint v;
        Println ["Function call with pointer (v3):"; s];;
        v ← deref p3; ScaleWithValueFunction v 3;;
        v ← deref v3; s ← Sprint v;
        Println ["Function call with pointer (p3):"; s];;
        v ← deref v3; Vertex_ScaleWithValue v 3;;
        v ← deref v3; s ← Sprint v;
        Println ["Value receiver method call (v3):"; s];;
        v ← deref p3; Vertex_ScaleWithValue v 3;;
        v ← deref v3; s ← Sprint v;
        Println ["Value receiver method call (p3):"; s]))).

(** [func main()] of the command that runs the package. *)
Definition main {B : Build} : M unit :=
  Println ["Methods in Go:"];;
  Println [newline +:+ "Introduction-"];;
  DemoImplementationMethodsIntroduction;;
  Println [newline +:+ "Interfaces-"];;
  DemoImplementationMethodsAndInterface.

End Fmt.


(** ** Tolerance

    The exact value of a [float64] and what it is for one to be within a
    relative tolerance of another. *)

Section Tolerance.
Local Open Scope R_scope.

(** 2 to the power [e]. *)
Definition bpow (e : Z) : R := powerRZ 2 e.

(** Where a real lies between two consecutive integers, as a rounding
    record tells it. *)
Definition located (mrs : shr_record) (v : R) : Prop :=
  match shr_r mrs, shr_s mrs with
  | false, false => v = IZR (shr_m mrs)
  | false, true => IZR (shr_m mrs) < v < IZR (shr_m mrs) + / 2
  | true, false => v = IZR (shr_m mrs) + / 2
  | true, true => IZR (shr_m mrs) + / 2 < v < IZR (shr_m mrs) + 1
  end.

(** The real number a finite float denotes; 0 for the others. *)
Definition SF2R (x : spec_float) : R :=
  match x with
  | S754_finite s m e => IZR (cond_Zopp s (Z.pos m)) * bpow e
  | _ => 0
  end.

(** A normal number: finite, with a full 53-bit mantissa. *)
Definition SF_normal (x : spec_float) : bool :=
  match x with
  | S754_finite _ m _ => (Z.pos (digits2_pos m) =? 53)%Z
  | _ => false
  end.

(** The exact value of a [float64]. *)
Definition F2R (f : float64) : R := SF2R (Prim2SF f).

(** Neither zero, subnormal, infinite nor NaN. *)
Definition float64_normal (f : float64) : bool := SF_normal (Prim2SF f).

(** Neither infinite nor NaN. *)
Definition float64_finite (f : float64) : bool :=
  match Prim2SF f with
  | S754_zero _ | S754_finite _ _ _ => true
  | _ => false
  end.

(** Plus or minus zero. *)
Definition float64_zero (f : float64) : bool :=
  match Prim2SF f with
  | S754_zero _ => true
  | _ => false
  end.

(** Scaling the coordinate [c] by [k] and back by [1/k] stays in range: [c]
    is a zero, or the two products are normal numbers. *)
Definition round_trip_in_range (c k : float64) : bool :=
  float64_zero c || (float64_normal (c * k) && float64_normal (c * k * (1 / k))).

(** [a] is a number within relative error [eps] of the number [b]. *)
Definition within_tolerance (eps : R) (a b : float64) : Prop :=
  float64_finite a = true /\ float64_finite b = true /\
  Rabs (F2R a - F2R b) <= eps * Rabs (F2R b).

End Tolerance.

(** ** The Euclidean norm

    The exact length of the vector two [float64] coordinates denote. *)

Section Norm.
Local Open Scope R_scope.

Definition Euclidean_norm (x y : float64) : R :=
  R_sqrt.sqrt (F2R x * F2R x + F2R y * F2R y).

End Norm.

(** ** Properties of the store and of output *)

Lemma append_assoc (a b c : string) : (a +:+ b) +:+ c = a +:+ (b +:+ c).
Proof.
  induction a as [|ch a IH]; [reflexivity |].
  change (String ch ((a +:+ b) +:+ c) = String ch (a +:+ (b +:+ c))).
  now rewrite IH.
Qed.

Lemma fresh_Vertex_unused (m : mem) : vertices m !! fresh (dom (vertices m)) = None.
Proof. apply not_elem_of_dom, is_fresh. Qed.

Lemma mem_eta (m : mem) : mkMem (vertices m) (coordinates m) (stdout m) = m.
Proof. now destruct m. Qed.

(** A panic is never turned back into a result: what follows it does not run. *)
Lemma panic_propagates {A B : Type} (c : M A) (k : A -> M B) (m m' : mem) (e : fault) :
  c m = Panic e m' -> (c ≫= k) m = Panic e m'.
Proof. intros Hc. unfold mbind, M_bind. now rewrite Hc. Qed.

Lemma Vertex_scale_in_place (m : mem) (l : loc) (v : Vertex) (f : float64) :
  vertices m !! l = Some v ->
  Vertex_ScaleWithPointer (addr l) f m =
  Ok tt (mkMem (<[l := mkVertex (Vertex_X v * f) (Vertex_Y v * f)]> (vertices m))
               (coordinates m) (stdout m)).
Proof.
  intros Hl. unfold Vertex_ScaleWithPointer, mbind, M_bind, deref, assign. simpl.
  repeat (first [rewrite Hl | rewrite lookup_insert_eq]; simpl).
  now rewrite insert_insert_eq.
Qed.


(** A variable that lives for the duration of a scaling body leaves the
    store as it found it. *)
Lemma scale_a_copy (m : mem) (v0 : Vertex) (f : float64) :
  with_local v0 (fun v => Vertex_ScaleWithPointer v f) m = Ok tt m.
Proof.
  unfold with_local, alloc. unfold mbind at 1. unfold M_bind at 1. simpl.
  unfold mbind at 1. unfold M_bind at 1.
  rewrite (Vertex_scale_in_place _ _ v0) by (simpl; apply lookup_insert_eq).
  unfold mbind, M_bind, free, mret, M_ret. simpl.
  rewrite insert_insert_eq, delete_insert_id by apply fresh_Vertex_unused.
  now rewrite mem_eta.
Qed.

(** ** Rounding error of float64 multiplication and division

    [Prim2SF] gives each float64 its sign, mantissa and exponent, and the
    kernel's operations are specified on them ([mul_spec], [div_spec]) by
    the rounding of [binary_round_aux]. *)

Section Rounding.
Local Open Scope R_scope.

Lemma bpow_pos e : 0 < bpow e.
Proof. apply powerRZ_lt; lra. Qed.

Lemma bpow_add a b : bpow (a + b) = bpow a * bpow b.
Proof. apply powerRZ_add; lra. Qed.

Lemma bpow_1 : bpow 1 = 2.
Proof. unfold bpow. simpl. lra. Qed.

Lemma bpow_0 : bpow 0 = 1.
Proof. reflexivity. Qed.

Lemma bpow_IZR (n : Z) : (0 <= n)%Z -> bpow n = IZR (2 ^ n).
Proof.
  intros Hn. unfold bpow. destruct n as [|p|p]; [simpl; lra | | lia].
  rewrite <- Zpower_pos_powerRZ. reflexivity.
Qed.

Lemma bpow_ge_1 (n : Z) : (0 <= n)%Z -> 1 <= bpow n.
Proof.
  intros Hn. rewrite bpow_IZR by exact Hn. apply IZR_le.
  assert (0 < 2 ^ n)%Z by (apply Z.pow_pos_nonneg; lia). lia.
Qed.

Lemma bpow_le a b : (a <= b)%Z -> bpow a <= bpow b.
Proof.
  intros H. replace b with (a + (b - a))%Z by lia. rewrite bpow_add.
  pose proof (bpow_pos a). assert (1 <= bpow (b - a)) by (apply bpow_ge_1; lia). nra.
Qed.

Lemma digits2_pos_size p : digits2_pos p = Pos.size p.
Proof. induction p; simpl; congruence. Qed.

Lemma Zdigits2_bounds (m : Z) :
  (0 <= m)%Z -> (m < 2 ^ Zdigits2 m)%Z /\ (0 <= Zdigits2 m)%Z /\ (0 < m -> 2 ^ (Zdigits2 m - 1) <= m)%Z.
Proof.
  intros Hm. destruct m as [|p|p]; [simpl; lia | | lia].
  change (Zdigits2 (Z.pos p)) with (Z.pos (digits2_pos p)).
  rewrite digits2_pos_size. split; [| split; [lia |]].
  - pose proof (Pos.size_gt p) as H.
    assert (H1 : (Z.pos p < Z.pos (2 ^ Pos.size p))%Z) by lia.
    now rewrite Pos2Z.inj_pow in H1.
  - intros _. pose proof (Pos.size_le p) as H.
    assert (H2 : (Z.pos (2 ^ Pos.size p) <= 2 * Z.pos p)%Z).
    { change (2 * Z.pos p)%Z with (Z.pos p~0). now apply Pos2Z.pos_le_pos. }
    rewrite Pos2Z.inj_pow in H2.
    replace (Z.pos (Pos.size p)) with (1 + (Z.pos (Pos.size p) - 1))%Z in H2 by lia.
    rewrite Z.pow_add_r, Z.pow_1_r in H2 by lia. lia.
Qed.

Lemma located_range mrs v :
  located mrs v -> IZR (shr_m mrs) <= v < IZR (shr_m mrs) + 1.
Proof. unfold located. destruct (shr_r mrs), (shr_s mrs); lra. Qed.

Lemma IZR_xO p : IZR (Z.pos p~0) = 2 * IZR (Z.pos p).
Proof. now rewrite Pos2Z.inj_xO, mult_IZR. Qed.

Lemma IZR_xI p : IZR (Z.pos p~1) = 2 * IZR (Z.pos p) + 1.
Proof. now rewrite Pos2Z.inj_xI, plus_IZR, mult_IZR. Qed.

Lemma shr_1_located mrs v :
  (0 <= shr_m mrs)%Z -> located mrs v ->
  located (shr_1 mrs) (v / 2) /\ (0 <= shr_m (shr_1 mrs))%Z.
Proof.
  destruct mrs as [m r s]. cbn [shr_m]. intros Hm.
  destruct m as [|p|p]; [| destruct p as [p|p|] |].
  5: lia.
  all: unfold located; destruct r, s; cbn [shr_1 shr_m shr_r shr_s orb];
    rewrite ?(IZR_xO p), ?(IZR_xI p); intros H; (split; [lra | lia]).
Qed.

Lemma iter_pos_shr_1_located p : forall mrs v,
  (0 <= shr_m mrs)%Z -> located mrs v ->
  located (SpecFloat.iter_pos shr_1 p mrs) (v / bpow (Z.pos p)) /\
  (0 <= shr_m (SpecFloat.iter_pos shr_1 p mrs))%Z.
Proof.
  induction p as [p IH|p IH|]; intros mrs v Hm Hv; simpl SpecFloat.iter_pos.
  - destruct (shr_1_located _ _ Hm Hv) as [H1 H1'].
    destruct (IH _ _ H1' H1) as [H2 H2'].
    destruct (IH _ _ H2' H2) as [H3 H3'].
    split; [| exact H3'].
    replace (v / bpow (Z.pos p~1)) with (v / 2 / bpow (Z.pos p) / bpow (Z.pos p)); [exact H3 |].
    rewrite Pos2Z.inj_xI. replace (2 * Z.pos p + 1)%Z with (Z.pos p + Z.pos p + 1)%Z by lia.
    rewrite !bpow_add, bpow_1. pose proof (bpow_pos (Z.pos p)). field. lra.
  - destruct (IH _ _ Hm Hv) as [H2 H2'].
    destruct (IH _ _ H2' H2) as [H3 H3'].
    split; [| exact H3'].
    replace (v / bpow (Z.pos p~0)) with (v / bpow (Z.pos p) / bpow (Z.pos p)); [exact H3 |].
    rewrite Pos2Z.inj_xO. replace (2 * Z.pos p)%Z with (Z.pos p + Z.pos p)%Z by lia.
    rewrite !bpow_add. pose proof (bpow_pos (Z.pos p)). field. lra.
  - rewrite bpow_1. now apply shr_1_located.
Qed.

Lemma round_nearest_even_located mrs v :
  located mrs v ->
  Rabs (IZR (round_nearest_even (shr_m mrs) (loc_of_shr_record mrs)) - v) <= / 2 /\
  (shr_m mrs <= round_nearest_even (shr_m mrs) (loc_of_shr_record mrs) <= shr_m mrs + 1)%Z.
Proof.
  destruct mrs as [m r s]. unfold located. simpl.
  destruct r, s; simpl; intros H.
  - rewrite plus_IZR. split; [apply Rabs_le; lra | lia].
  - destruct (Z.even m); [| rewrite plus_IZR]; (split; [apply Rabs_le; lra | lia]).
  - split; [apply Rabs_le; lra | lia].
  - split; [apply Rabs_le; lra | lia].
Qed.

Lemma shr_m_of_loc m l : shr_m (shr_record_of_loc m l) = m.
Proof. destruct l as [|[| |]]; reflexivity. Qed.

(** The first shift of a rounding: the mantissa drops to at most 53 bits and
    the record still locates the value. *)
Lemma shr_fexp_located (mx ex : Z) (lx : location) (v : R) :
  (0 <= mx)%Z -> located (shr_record_of_loc mx lx) v ->
  exists mrs' e',
    shr_fexp prec emax mx ex lx = (mrs', e') /\
    located mrs' (v * bpow (ex - e')) /\
    (0 <= shr_m mrs' < 2 ^ 53)%Z /\ (-1074 <= e')%Z /\ (ex <= e')%Z.
Proof.
  intros Hmx Hv.
  destruct (Zdigits2_bounds mx Hmx) as (Hd1 & Hd0 & _).
  pose proof (located_range _ _ Hv) as Hr. rewrite shr_m_of_loc in Hr.
  unfold shr_fexp, fexp, emin, prec, emax.
  set (d := Zdigits2 mx) in *.
  remember (Z.max (d + ex - 53) (3 - 1024 - 53) - ex)%Z as n eqn:Hn.
  destruct n as [|p|p]; unfold shr.
  - exists (shr_record_of_loc mx lx), ex. split; [reflexivity |].
    replace (ex - ex)%Z with 0%Z by lia. rewrite bpow_0, Rmult_1_r.
    split; [exact Hv |]. rewrite shr_m_of_loc.
    assert (2 ^ d <= 2 ^ 53)%Z by (apply Z.pow_le_mono_r; lia). lia.
  - destruct (iter_pos_shr_1_located p (shr_record_of_loc mx lx) v) as [H1 H2];
      [now rewrite shr_m_of_loc | exact Hv |].
    exists (SpecFloat.iter_pos shr_1 p (shr_record_of_loc mx lx)), (ex + Z.pos p)%Z.
    split; [reflexivity |].
    assert (Hval : v * bpow (ex - (ex + Z.pos p)) = v / bpow (Z.pos p)).
    { replace (ex - (ex + Z.pos p))%Z with (- Z.pos p)%Z by lia.
      unfold bpow at 1. rewrite powerRZ_neg'. reflexivity. }
    rewrite Hval. split; [exact H1 |]. split; [| lia].
    split; [exact H2 |].
    (* the shifted mantissa is below 2^53 *)
    pose proof (located_range _ _ H1) as Hr1.
    assert (Hlt : IZR (shr_m (SpecFloat.iter_pos shr_1 p (shr_record_of_loc mx lx))) < IZR (2 ^ 53)).
    { apply Rle_lt_trans with (1 := proj1 Hr1).
      assert (Hv' : v < IZR (2 ^ d)).
      { apply Rlt_le_trans with (1 := proj2 Hr).
        rewrite <- (plus_IZR mx 1). apply IZR_le. lia. }
      rewrite <- !bpow_IZR in * by lia.
      pose proof (bpow_pos (Z.pos p)) as Hp.
      apply Rlt_le_trans with (bpow d / bpow (Z.pos p)).
      - unfold Rdiv. apply Rmult_lt_compat_r; [now apply Rinv_0_lt_compat | exact Hv'].
      - replace (bpow d / bpow (Z.pos p)) with (bpow (d - Z.pos p)).
        + apply bpow_le. lia.
        + replace (d - Z.pos p)%Z with (d + - Z.pos p)%Z by lia.
          rewrite bpow_add. unfold bpow at 2. now rewrite powerRZ_neg'. }
    now apply lt_IZR.
  - exists (shr_record_of_loc mx lx), ex. split; [reflexivity |].
    replace (ex - ex)%Z with 0%Z by lia. rewrite bpow_0, Rmult_1_r.
    split; [exact Hv |]. rewrite shr_m_of_loc.
    assert (2 ^ d <= 2 ^ 53)%Z by (apply Z.pow_le_mono_r; lia). lia.
Qed.

(** The second shift of a rounding is exact: it only renormalises a
    mantissa that the rounding carried to 2^53. *)
Lemma shr_fexp_exact (m e : Z) :
  (0 <= m <= 2 ^ 53)%Z -> (-1074 <= e)%Z ->
  exists mrs' e',
    shr_fexp prec emax m e loc_Exact = (mrs', e') /\
    IZR (shr_m mrs') * bpow e' = IZR m * bpow e /\ (e <= e')%Z.
Proof.
  intros Hm He.
  destruct (Z.eq_dec m (2 ^ 53)%Z) as [-> | Hne].
  - exists (Build_shr_record (2 ^ 52)%Z false false), (e + 1)%Z.
    split; [| split; [| lia]].
    + unfold shr_fexp, fexp, emin, prec, emax.
      change (Zdigits2 (2 ^ 53)%Z) with 54%Z.
      replace (Z.max (54 + e - 53) (3 - 1024 - 53) - e)%Z with 1%Z by lia.
      reflexivity.
    + cbn [shr_m]. rewrite bpow_add, bpow_1.
      change (2 ^ 53)%Z with (2 * 2 ^ 52)%Z. rewrite mult_IZR. ring.
  - exists (shr_record_of_loc m loc_Exact), e.
    split; [| split; [reflexivity | lia]].
    destruct (Zdigits2_bounds m (proj1 Hm)) as (Hd1 & Hd0 & Hd2).
    unfold shr_fexp, fexp, emin, prec, emax.
    set (d := Zdigits2 m) in *.
    assert (Hd : (d <= 53)%Z).
    { destruct (Z.eq_dec m 0%Z) as [-> | Hm0]; [subst d; simpl; lia |].
      destruct (Z_le_gt_dec d 53%Z) as [Hle | Hgt]; [exact Hle | exfalso].
      assert (2 ^ 53 <= 2 ^ (d - 1))%Z by (apply Z.pow_le_mono_r; lia).
      specialize (Hd2 ltac:(lia)). lia. }
    remember (Z.max (d + e - 53) (3 - 1024 - 53) - e)%Z as n eqn:Hn.
    destruct n as [|p|p]; unfold shr; [reflexivity | lia | reflexivity].
Qed.

(** Rounding to nearest: a finite result is within half a unit in its last
    place of the value rounded. *)
Lemma binary_round_aux_bound (sx : bool) (mx ex : Z) (lx : location) (v : R)
    (s : bool) (m : positive) (e : Z) :
  (0 <= mx)%Z -> located (shr_record_of_loc mx lx) v ->
  binary_round_aux prec emax sx mx ex lx = S754_finite s m e ->
  s = sx /\ Rabs (IZR (Z.pos m) * bpow e - v * bpow ex) <= / 2 * bpow e.
Proof.
  intros Hmx Hv. unfold binary_round_aux.
  destruct (shr_fexp_located mx ex lx v Hmx Hv) as (mrs1 & e1 & -> & Hloc & Hm1 & He1 & Hee1).
  destruct (round_nearest_even_located _ _ Hloc) as [Hrnd Hrng].
  set (m1 := round_nearest_even (shr_m mrs1) (loc_of_shr_record mrs1)) in *.
  destruct (shr_fexp_exact m1 e1 ltac:(lia) He1) as (mrs2 & e2 & -> & Hval & Hee2).
  destruct (shr_m mrs2) as [|m2|m2] eqn:Hm2; try discriminate.
  destruct (e2 <=? emax - prec)%Z; try discriminate.
  intros Heq. injection Heq as <- <- <-. split; [reflexivity |].
  rewrite Hval.
  replace (IZR m1 * bpow e1 - v * bpow ex)
    with ((IZR m1 - v * bpow (ex - e1)) * bpow e1).
  - rewrite Rabs_mult, (Rabs_pos_eq (bpow e1)) by (left; apply bpow_pos).
    pose proof (bpow_le _ _ Hee2). pose proof (bpow_pos e1). nra.
  - replace (ex - e1)%Z with (ex + - e1)%Z by lia.
    rewrite bpow_add. unfold bpow at 2. rewrite powerRZ_neg'.
    fold (bpow e1). pose proof (bpow_pos e1). field. lra.
Qed.

Lemma Rabs_cond_Zopp (s : bool) (m : positive) (e : Z) :
  Rabs (IZR (cond_Zopp s (Z.pos m)) * bpow e) = IZR (Z.pos m) * bpow e.
Proof.
  pose proof (bpow_pos e). assert (0 < IZR (Z.pos m)) by (apply IZR_lt; lia).
  destruct s; simpl cond_Zopp.
  - change (Z.neg m) with (- Z.pos m)%Z. rewrite opp_IZR.
    rewrite <- Ropp_mult_distr_l, Rabs_Ropp. apply Rabs_pos_eq. nra.
  - apply Rabs_pos_eq. nra.
Qed.

Lemma SF_normal_large (s : bool) (m : positive) (e : Z) :
  SF_normal (S754_finite s m e) = true ->
  / 2 * bpow e <= bpow (-53) * Rabs (SF2R (S754_finite s m e)).
Proof.
  unfold SF_normal. intros Hd. apply Z.eqb_eq in Hd.
  destruct (Zdigits2_bounds (Z.pos m) ltac:(lia)) as (_ & _ & Hlow).
  specialize (Hlow ltac:(lia)). change (Zdigits2 (Z.pos m)) with (Z.pos (digits2_pos m)) in Hlow.
  rewrite Hd in Hlow. change (53 - 1)%Z with 52%Z in Hlow.
  unfold SF2R. rewrite Rabs_cond_Zopp.
  apply IZR_le in Hlow. rewrite <- bpow_IZR in Hlow by lia.
  pose proof (bpow_pos e). pose proof (bpow_pos (-53)).
  assert (Hu : bpow (-53) * bpow 52 = / 2).
  { rewrite <- bpow_add. change (-53 + 52)%Z with (-1)%Z. unfold bpow. simpl. lra. }
  rewrite <- Hu.
  assert (bpow 52 * bpow e <= IZR (Z.pos m) * bpow e) by nra.
  rewrite Rmult_assoc. apply Rmult_le_compat_l; lra.
Qed.

Lemma signed_difference (s : bool) (a b : Z) (x y : R) :
  Rabs (IZR (cond_Zopp s a) * x - IZR (cond_Zopp s b) * y) = Rabs (IZR a * x - IZR b * y).
Proof.
  destruct s; simpl cond_Zopp; [| reflexivity].
  rewrite !opp_IZR.
  replace (- IZR a * x - - IZR b * y) with (- (IZR a * x - IZR b * y)) by ring.
  apply Rabs_Ropp.
Qed.

Lemma cond_Zopp_mul (sx sy : bool) (mx my : positive) :
  (cond_Zopp sx (Z.pos mx) * cond_Zopp sy (Z.pos my))%Z
  = cond_Zopp (xorb sx sy) (Z.pos (mx * my)).
Proof. destruct sx, sy; simpl; reflexivity. Qed.

(** Multiplication: a normal product is within relative error 2^-53 of the
    exact product. *)
Lemma SFmul_error (x y : spec_float) :
  SF_normal (SFmul prec emax x y) = true ->
  Rabs (SF2R (SFmul prec emax x y) - SF2R x * SF2R y)
  <= bpow (-53) * Rabs (SF2R (SFmul prec emax x y)).
Proof.
  destruct x as [sx|sx| |sx mx ex], y as [sy|sy| |sy my ey];
    try (simpl; discriminate).
  cbn [SFmul].
  destruct (binary_round_aux prec emax (xorb sx sy) (Z.pos (mx * my)) (ex + ey) loc_Exact)
    as [s|s| |s m e] eqn:Hr; try (simpl; discriminate).
  intros Hn.
  destruct (binary_round_aux_bound (xorb sx sy) (Z.pos (mx * my)) (ex + ey) loc_Exact
              (IZR (Z.pos (mx * my))) s m e ltac:(lia) ltac:(reflexivity) Hr) as [-> Hb].
  apply Rle_trans with (2 := SF_normal_large _ _ _ Hn).
  unfold SF2R.
  replace (IZR (cond_Zopp sx (Z.pos mx)) * bpow ex * (IZR (cond_Zopp sy (Z.pos my)) * bpow ey))
    with (IZR (cond_Zopp (xorb sx sy) (Z.pos (mx * my))) * bpow (ex + ey)).
  - now rewrite signed_difference.
  - rewrite <- cond_Zopp_mul, mult_IZR, bpow_add. ring.
Qed.

(** The location a division remainder gives the exact quotient. *)
Lemma new_location_located (m2 q r : Z) :
  (0 <= r < m2)%Z ->
  located (shr_record_of_loc q (new_location m2 r)) (IZR q + IZR r / IZR m2).
Proof.
  intros Hr.
  assert (Hm2 : 0 < IZR m2) by (apply IZR_lt; lia).
  set (x := IZR r / IZR m2).
  assert (Hx : x * IZR m2 = IZR r) by (unfold x; field; lra).
  assert (Hr0 : 0 <= IZR r) by (apply IZR_le; lia).
  destruct (Z.eq_dec r 0%Z) as [-> | Hne].
  - assert (H : x = 0) by (unfold x, Rdiv; apply Rmult_0_l). clearbody x.
    unfold new_location, new_location_even, new_location_odd.
    destruct (Z.even m2); unfold located; simpl; rewrite H; ring.
  - assert (Hrpos : 0 < IZR r) by (apply IZR_lt; lia). clearbody x.
    assert (Hrb : (r =? 0)%Z = false) by now apply Z.eqb_neq.
    assert (Hrm : IZR r < IZR m2) by (apply IZR_lt; lia).
    unfold new_location, new_location_even, new_location_odd.
    destruct (Z.even m2) eqn:Hev; rewrite Hrb.
    + destruct (Z.compare_spec (2 * r) m2) as [Hc | Hc | Hc]; unfold located; simpl.
      * apply (f_equal IZR) in Hc. rewrite mult_IZR in Hc.
        assert (x = / 2) by (apply Rmult_eq_reg_r with (IZR m2); [rewrite Hx; lra | lra]). lra.
      * apply IZR_lt in Hc. rewrite mult_IZR in Hc. nra.
      * apply IZR_lt in Hc. rewrite mult_IZR in Hc. nra.
    + assert (Hodd : (2 * r <> m2)%Z).
      { intros <-. rewrite Z.even_mul in Hev. discriminate. }
      destruct (Z.compare_spec (2 * r + 1) m2) as [Hc | Hc | Hc]; unfold located; simpl.
      * assert (Hlt : (2 * r < m2)%Z) by lia.
        apply IZR_lt in Hlt. rewrite mult_IZR in Hlt. nra.
      * assert (Hlt : (2 * r < m2)%Z) by lia.
        apply IZR_lt in Hlt. rewrite mult_IZR in Hlt. nra.
      * assert (Hgt : (m2 < 2 * r)%Z) by lia.
        apply IZR_lt in Hgt. rewrite mult_IZR in Hgt. nra.
Qed.

Lemma SFdiv_core_binary_located (mx my : positive) (ex ey : Z) :
  exists q e l,
    SFdiv_core_binary prec emax (Z.pos mx) ex (Z.pos my) ey = (q, e, l) /\
    (0 <= q)%Z /\
    located (shr_record_of_loc q l)
            (IZR (Z.pos mx) * bpow ex / (IZR (Z.pos my) * bpow ey) / bpow e).
Proof.
  unfold SFdiv_core_binary.
  set (e' := Z.min (fexp prec emax (Zdigits2 (Z.pos mx) + ex - (Zdigits2 (Z.pos my) + ey)))
                   (ex - ey)).
  assert (He' : (e' <= ex - ey)%Z) by apply Z.le_min_r.
  set (s := (ex - ey - e')%Z).
  assert (Hs : (0 <= s)%Z) by (unfold s; lia).
  set (m' := match s with
             | 0%Z => Z.pos mx
             | Z.pos _ => Z.shiftl (Z.pos mx) s
             | Z.neg _ => 0%Z
             end).
  assert (Hm' : m' = (Z.pos mx * 2 ^ s)%Z).
  { unfold m'. destruct s as [|p|p]; [lia | | lia].
    now rewrite Z.shiftl_mul_pow2 by lia. }
  pose proof (Z_div_mod m' (Z.pos my) ltac:(lia)) as Hdiv.
  destruct (Z.div_eucl m' (Z.pos my)) as [q r]. destruct Hdiv as [Heq Hr].
  assert (Hpow : (0 < 2 ^ s)%Z) by (apply Z.pow_pos_nonneg; lia).
  assert (Hq : (0 <= q)%Z) by nia.
  exists q, e', (new_location (Z.pos my) r). split; [reflexivity |]. split; [exact Hq |].
  replace (IZR (Z.pos mx) * bpow ex / (IZR (Z.pos my) * bpow ey) / bpow e')
    with (IZR q + IZR r / IZR (Z.pos my)); [now apply new_location_located |].
  assert (Hmy : 0 < IZR (Z.pos my)) by (apply IZR_lt; lia).
  pose proof (bpow_pos ey). pose proof (bpow_pos e').
  replace ex with (s + e' + ey)%Z by (unfold s; lia).
  rewrite !bpow_add, (bpow_IZR s) by lia.
  replace (IZR q + IZR r / IZR (Z.pos my)) with (IZR m' / IZR (Z.pos my)).
  - rewrite Hm', mult_IZR. field. lra.
  - rewrite Heq, plus_IZR, mult_IZR. field. lra.
Qed.

Lemma IZR_cond_Zopp (s : bool) (m : Z) :
  IZR (cond_Zopp s m) = if s then - IZR m else IZR m.
Proof. destruct s; simpl; [apply opp_IZR | reflexivity]. Qed.

(** Division: a normal quotient is within relative error 2^-53 of the exact
    quotient. *)
Lemma SFdiv_error (x y : spec_float) :
  SF_normal (SFdiv prec emax x y) = true ->
  SF2R y <> 0 /\
  Rabs (SF2R (SFdiv prec emax x y) - SF2R x / SF2R y)
  <= bpow (-53) * Rabs (SF2R (SFdiv prec emax x y)).
Proof.
  destruct x as [sx|sx| |sx mx ex], y as [sy|sy| |sy my ey];
    try (simpl; discriminate).
  cbn [SFdiv].
  destruct (SFdiv_core_binary_located mx my ex ey) as (q & e' & l & -> & Hq & Hloc).
  destruct (binary_round_aux prec emax (xorb sx sy) q e' l)
    as [s|s| |s m e] eqn:Hr; try (simpl; discriminate).
  intros Hn.
  destruct (binary_round_aux_bound (xorb sx sy) q e' l _ s m e Hq Hloc Hr) as [-> Hb].
  assert (Hmy : 0 < IZR (Z.pos my)) by (apply IZR_lt; lia).
  pose proof (bpow_pos ey) as Hey. pose proof (bpow_pos e') as He'.
  assert (Hy : SF2R (S754_finite sy my ey) <> 0).
  { unfold SF2R. rewrite IZR_cond_Zopp. destruct sy; nra. }
  split; [exact Hy |].
  apply Rle_trans with (2 := SF_normal_large _ _ _ Hn).
  replace (IZR (Z.pos mx) * bpow ex / (IZR (Z.pos my) * bpow ey) / bpow e' * bpow e')
    with (IZR (Z.pos mx) * bpow ex / (IZR (Z.pos my) * bpow ey)) in Hb by (field; lra).
  unfold SF2R. rewrite !IZR_cond_Zopp.
  replace ((if sx then - IZR (Z.pos mx) else IZR (Z.pos mx)) * bpow ex /
           ((if sy then - IZR (Z.pos my) else IZR (Z.pos my)) * bpow ey))
    with (if xorb sx sy
          then - (IZR (Z.pos mx) * bpow ex / (IZR (Z.pos my) * bpow ey))
          else IZR (Z.pos mx) * bpow ex / (IZR (Z.pos my) * bpow ey)).
  - destruct (xorb sx sy); [| exact Hb].
    replace (- IZR (Z.pos m) * bpow e - - (IZR (Z.pos mx) * bpow ex / (IZR (Z.pos my) * bpow ey)))
      with (- (IZR (Z.pos m) * bpow e - IZR (Z.pos mx) * bpow ex / (IZR (Z.pos my) * bpow ey)))
      by ring.
    now rewrite Rabs_Ropp.
  - destruct sx, sy; simpl; field; lra.
Qed.

Lemma bpow_neg_53 : bpow (-53) = / 9007199254740992.
Proof.
  change (-53)%Z with (- (53))%Z. unfold bpow. rewrite powerRZ_neg'.
  fold (bpow 53). rewrite bpow_IZR by lia. reflexivity.
Qed.

Lemma bpow_neg_51 : bpow (-51) = / 2251799813685248.
Proof.
  change (-51)%Z with (- (51))%Z. unfold bpow. rewrite powerRZ_neg'.
  fold (bpow 51). rewrite bpow_IZR by lia. reflexivity.
Qed.

(** Three roundings, each within relative error u of its result, compose to
    a round trip within relative error 4u. *)
Lemma round_trip_real (X K P R Q : R) :
  K <> 0 ->
  Rabs (P - X * K) <= bpow (-53) * Rabs P ->
  Rabs (R - 1 / K) <= bpow (-53) * Rabs R ->
  Rabs (Q - P * R) <= bpow (-53) * Rabs Q ->
  Rabs (Q - X) <= bpow (-51) * Rabs X.
Proof.
  rewrite bpow_neg_53, bpow_neg_51.
  set (u := / 9007199254740992).
  assert (Hu : 0 < u <= / 9007199254740992) by (unfold u; lra).
  intros HK H1 H2 H3.
  pose proof (Rabs_pos P) as Hp. pose proof (Rabs_pos R) as Hr.
  pose proof (Rabs_pos Q) as Hq. pose proof (Rabs_pos X) as Hx.
  pose proof (Rabs_pos (P - X * K)) as H1p.
  pose proof (Rabs_pos (R - 1 / K)) as H2p.
  pose proof (Rabs_pos (Q - P * R)) as H3p.
  pose proof (Rabs_pos (/ K)) as HKp.
  assert (A : Rabs (/ K) <= (1 + u) * Rabs R).
  { replace (/ K) with (R + - (R - 1 / K)) by (field; exact HK).
    eapply Rle_trans; [apply Rabs_triang |]. rewrite Rabs_Ropp. lra. }
  assert (B : Rabs (P * R - X) <= u * (2 + u) * (Rabs P * Rabs R)).
  { replace (P * R - X) with (P * (R - 1 / K) + (P - X * K) * / K) by (field; exact HK).
    eapply Rle_trans; [apply Rabs_triang |]. rewrite !Rabs_mult.
    assert (Rabs P * Rabs (R - 1 / K) <= Rabs P * (u * Rabs R))
      by (apply Rmult_le_compat_l; assumption).
    assert (Rabs (P - X * K) * Rabs (/ K) <= (u * Rabs P) * ((1 + u) * Rabs R))
      by (apply Rmult_le_compat; assumption).
    lra. }
  assert (C : Rabs P * Rabs R <= (1 + u) * Rabs Q).
  { rewrite <- Rabs_mult. replace (P * R) with (Q + - (Q - P * R)) by ring.
    eapply Rle_trans; [apply Rabs_triang |]. rewrite Rabs_Ropp. lra. }
  assert (D : Rabs (Q - X) <= u * Rabs Q + u * (2 + u) * ((1 + u) * Rabs Q)).
  { replace (Q - X) with ((Q - P * R) + (P * R - X)) by ring.
    eapply Rle_trans; [apply Rabs_triang |].
    assert (u * (2 + u) * (Rabs P * Rabs R) <= u * (2 + u) * ((1 + u) * Rabs Q))
      by (apply Rmult_le_compat_l; [nra | exact C]).
    lra. }
  assert (E : Rabs Q <= Rabs X + Rabs (Q - X)).
  { replace Q with (X + (Q - X)) at 1 by ring. apply Rabs_triang. }
  pose proof (Rabs_pos (Q - X)) as Hd.
  set (d := Rabs (Q - X)) in *. set (q := Rabs Q) in *. set (x := Rabs X) in *.
  set (c := u + u * (2 + u) * (1 + u)).
  assert (Hc : 0 < c /\ c <= 4 * u * (1 - c)) by (unfold c, u; split; lra).
  assert (D' : d <= c * q) by (unfold c; lra).
  assert (F : d * (1 - c) <= c * x) by nra.
  assert (G : c * x <= 4 * u * (1 - c) * x) by (apply Rmult_le_compat_r; lra).
  assert (H1c : 0 < 1 - c) by (unfold c, u; lra).
  replace (/ 2251799813685248) with (4 * u) by (unfold u; lra).
  apply Rmult_le_reg_r with (1 - c); [exact H1c |]. lra.
Qed.

Lemma F2R_one : F2R 1 = 1.
Proof.
  unfold F2R. change (Prim2SF 1) with (S754_finite false 4503599627370496 (-52)).
  unfold SF2R. cbn [cond_Zopp].
  change (-52)%Z with (- (52))%Z. unfold bpow. rewrite powerRZ_neg'.
  fold (bpow 52). rewrite bpow_IZR by lia.
  change (2 ^ 52)%Z with 4503599627370496%Z. field.
Qed.

Lemma float64_mul_error (x y : float64) :
  float64_normal (x * y) = true ->
  Rabs (F2R (x * y) - F2R x * F2R y) <= bpow (-53) * Rabs (F2R (x * y)).
Proof. unfold float64_normal, F2R. rewrite mul_spec. apply SFmul_error. Qed.

Lemma float64_div_error (x y : float64) :
  float64_normal (x / y) = true ->
  F2R y <> 0 /\
  Rabs (F2R (x / y) - F2R x / F2R y) <= bpow (-53) * Rabs (F2R (x / y)).
Proof. unfold float64_normal, F2R. rewrite div_spec. apply SFdiv_error. Qed.

Lemma normal_is_finite (f : float64) : float64_normal f = true -> float64_finite f = true.
Proof. unfold float64_normal, float64_finite. now destruct (Prim2SF f). Qed.

Lemma mul_normal_finite (x y : float64) :
  float64_normal (x * y) = true -> float64_finite x = true.
Proof.
  unfold float64_normal, float64_finite. rewrite mul_spec.
  destruct (Prim2SF x), (Prim2SF y); simpl; congruence.
Qed.

(** One coordinate, scaled by k and then by 1/k. *)
Lemma coordinate_round_trip (c k : float64) :
  float64_normal (1 / k) = true ->
  float64_normal (c * k) = true ->
  float64_normal (c * k * (1 / k)) = true ->
  within_tolerance (bpow (-51)) (c * k * (1 / k)) c.
Proof.
  intros Hk H1 H2. unfold within_tolerance.
  split; [now apply normal_is_finite |].
  split; [now apply mul_normal_finite with k |].
  destruct (float64_div_error 1 k Hk) as [Hk0 Hdiv]. rewrite F2R_one in Hdiv.
  apply round_trip_real with (K := F2R k) (P := F2R (c * k)) (R := F2R (1 / k)).
  - exact Hk0.
  - now apply float64_mul_error.
  - exact Hdiv.
  - now apply float64_mul_error.
Qed.

(** A zero coordinate, scaled by k and then by 1/k, is a zero again. *)
Lemma zero_round_trip (c k : float64) :
  float64_normal (1 / k) = true ->
  float64_zero c = true ->
  float64_zero (c * k * (1 / k)) = true.
Proof.
  unfold float64_normal, float64_zero. rewrite !mul_spec. intros Hk Hc.
  destruct (Prim2SF (1 / k)) as [sq|sq| |sq mq eq] eqn:Hq; try discriminate Hk.
  rewrite div_spec in Hq.
  change (Prim2SF 1) with (S754_finite false 4503599627370496 (-52)) in Hq.
  unfold SF64div, SF64mul in *.
  destruct (Prim2SF c) as [sc|sc| |sc mc ec]; try discriminate Hc.
  destruct (Prim2SF k) as [sk|sk| |sk mk ek]; cbn [SFdiv] in Hq; try discriminate Hq.
  reflexivity.
Qed.

Lemma zero_within_tolerance (a c : float64) :
  float64_zero a = true -> float64_zero c = true -> within_tolerance (bpow (-51)) a c.
Proof.
  unfold float64_zero, within_tolerance, float64_finite, F2R.
  destruct (Prim2SF a); try discriminate. destruct (Prim2SF c); try discriminate.
  intros _ _. split; [reflexivity |]. split; [reflexivity |].
  cbn [SF2R]. rewrite Rminus_diag, Rabs_R0. lra.
Qed.

(** One coordinate in range, scaled by k and then by 1/k. *)
Lemma coordinate_round_trip_in_range (c k : float64) :
  float64_normal (1 / k) = true ->
  round_trip_in_range c k = true ->
  within_tolerance (bpow (-51)) (c * k * (1 / k)) c.
Proof.
  intros Hk Hr. unfold round_trip_in_range in Hr.
  apply orb_prop in Hr as [Hz | Hn].
  - apply zero_within_tolerance; [now apply zero_round_trip | exact Hz].
  - apply andb_prop in Hn as [H1 H2]. now apply coordinate_round_trip.
Qed.

End Rounding.

(** ** Rounding error of float64 addition and square root *)

Section RoundingMore.
Local Open Scope R_scope.

Lemma iter_xO_pow (m d : positive) :
  Z.pos (Pos.iter xO m d) = (Z.pos m * 2 ^ Z.pos d)%Z.
Proof.
  induction d as [|d IH] using Pos.peano_ind.
  - simpl. lia.
  - rewrite Pos.iter_succ, Pos2Z.inj_xO, IH, Pos2Z.inj_succ, Z.pow_succ_r by lia. ring.
Qed.

(** Aligning a mantissa to a smaller exponent keeps the value. *)
Lemma shl_align_value (mx : positive) (ex ex' : Z) :
  IZR (Z.pos (fst (shl_align mx ex ex'))) * bpow (snd (shl_align mx ex ex'))
  = IZR (Z.pos mx) * bpow ex.
Proof.
  unfold shl_align. destruct (ex' - ex)%Z as [|d|d] eqn:Hd; cbn [fst snd]; try reflexivity.
  rewrite iter_xO_pow, mult_IZR, <- bpow_IZR by lia.
  rewrite Rmult_assoc, <- bpow_add. f_equal. f_equal. lia.
Qed.

Lemma shl_align_exponent (mx : positive) (ex ex' : Z) :
  (ex' <= ex)%Z -> snd (shl_align mx ex ex') = ex'.
Proof.
  intros Hle. unfold shl_align.
  destruct (ex' - ex)%Z as [|d|d] eqn:Hd; cbn [snd]; lia.
Qed.

Lemma binary_round_bound (sx : bool) (mx : positive) (ex : Z)
    (s : bool) (m : positive) (e : Z) :
  binary_round prec emax sx mx ex = S754_finite s m e ->
  s = sx /\ Rabs (IZR (Z.pos m) * bpow e - IZR (Z.pos mx) * bpow ex) <= / 2 * bpow e.
Proof.
  unfold binary_round.
  pose proof (shl_align_value mx ex (fexp prec emax (Z.pos (digits2_pos mx) + ex))) as Hval.
  destruct (shl_align mx ex (fexp prec emax (Z.pos (digits2_pos mx) + ex))) as [mz ez].
  cbn [fst snd] in Hval. intros Hr. rewrite <- Hval.
  apply (binary_round_aux_bound sx (Z.pos mz) ez loc_Exact (IZR (Z.pos mz)) s m e);
    [lia | reflexivity | exact Hr].
Qed.

Lemma SF2R_finite (s : bool) (m : positive) (e : Z) :
  SF2R (S754_finite s m e) = (if s then - (IZR (Z.pos m) * bpow e) else IZR (Z.pos m) * bpow e).
Proof. unfold SF2R. rewrite IZR_cond_Zopp. destruct s; ring. Qed.

(** Addition: a normal sum is within relative error 2^-53 of the exact sum. *)
Lemma SFadd_error (x y : spec_float) :
  SF_normal (SFadd prec emax x y) = true ->
  Rabs (SF2R (SFadd prec emax x y) - (SF2R x + SF2R y))
  <= bpow (-53) * Rabs (SF2R (SFadd prec emax x y)).
Proof.
  assert (Hexact : forall z : R, Rabs (z - (0 + z)) <= bpow (-53) * Rabs z).
  { intros z. replace (z - (0 + z)) with 0 by ring. rewrite Rabs_R0.
    pose proof (bpow_pos (-53)). pose proof (Rabs_pos z). nra. }
  assert (Hexact' : forall z : R, Rabs (z - (z + 0)) <= bpow (-53) * Rabs z).
  { intros z. rewrite Rplus_comm. apply Hexact. }
  destruct x as [sx|sx| |sx mx ex], y as [sy|sy| |sy my ey];
    try (simpl; discriminate);
    try (destruct sx, sy; simpl; discriminate).
  - intros _. apply Hexact.
  - intros _. apply Hexact'.
  - cbn [SFadd].
    set (ez := Z.min ex ey).
    pose proof (shl_align_value mx ex ez) as Hvx.
    pose proof (shl_align_value my ey ez) as Hvy.
    rewrite (shl_align_exponent mx ex ez) in Hvx by apply Z.le_min_l.
    rewrite (shl_align_exponent my ey ez) in Hvy by apply Z.le_min_r.
    set (ax := fst (shl_align mx ex ez)) in *.
    set (ay := fst (shl_align my ey ez)) in *.
    assert (Hsum : SF2R (S754_finite sx mx ex) + SF2R (S754_finite sy my ey)
                   = IZR (cond_Zopp sx (Z.pos ax) + cond_Zopp sy (Z.pos ay)) * bpow ez).
    { rewrite plus_IZR, !IZR_cond_Zopp, !SF2R_finite. destruct sx, sy; lra. }
    rewrite Hsum.
    destruct (cond_Zopp sx (Z.pos ax) + cond_Zopp sy (Z.pos ay))%Z as [|p|p];
      cbn [binary_normalize]; try (simpl; discriminate).
    + destruct (binary_round prec emax false p ez) as [s|s| |s m e] eqn:Hr;
        try (simpl; discriminate).
      intros Hn. destruct (binary_round_bound _ _ _ _ _ _ Hr) as [-> Hb].
      apply Rle_trans with (2 := SF_normal_large _ _ _ Hn).
      rewrite SF2R_finite. exact Hb.
    + destruct (binary_round prec emax true p ez) as [s|s| |s m e] eqn:Hr;
        try (simpl; discriminate).
      intros Hn. destruct (binary_round_bound _ _ _ _ _ _ Hr) as [-> Hb].
      apply Rle_trans with (2 := SF_normal_large _ _ _ Hn).
      rewrite SF2R_finite. change (Z.neg p) with (- Z.pos p)%Z. rewrite opp_IZR.
      replace (- (IZR (Z.pos m) * bpow e) - - IZR (Z.pos p) * bpow ez)
        with (- (IZR (Z.pos m) * bpow e - IZR (Z.pos p) * bpow ez)) by ring.
      now rewrite Rabs_Ropp.
Qed.

End RoundingMore.

Section RoundingSqrt.
Local Open Scope R_scope.

(** The location an integer square root remainder gives the exact root. *)
Lemma sqrtrem_located (n : Z) :
  (0 <= n)%Z ->
  let (q, r) := Z.sqrtrem n in
  (0 <= q)%Z /\
  located (shr_record_of_loc q
             (if (r =? 0)%Z then loc_Exact else loc_Inexact (if (r <=? q)%Z then Lt else Gt)))
          (R_sqrt.sqrt (IZR n)).
Proof.
  intros Hn. pose proof (Z.sqrtrem_spec n Hn) as Hs.
  destruct (Z.sqrtrem n) as [q r]. destruct Hs as [Heq [Hr0 Hr2]].
  assert (Hq : (0 <= q)%Z) by lia. split; [exact Hq |].
  assert (Hn' : 0 <= IZR n) by (apply IZR_le; lia).
  assert (Hq' : 0 <= IZR q) by (apply IZR_le; lia).
  pose proof (sqrt_pos (IZR n)) as Hpos.
  pose proof (sqrt_sqrt (IZR n) Hn') as Hsq.
  assert (HnR : IZR n = IZR q * IZR q + IZR r) by (rewrite Heq, plus_IZR, mult_IZR; ring).
  set (t := R_sqrt.sqrt (IZR n)) in *.
  destruct (Z.eqb_spec r 0) as [-> | Hne].
  - unfold located; simpl. 
    assert (Ht : t * t = IZR q * IZR q) by lra.
    assert (Hd : (t - IZR q) * (t + IZR q) = 0) by nra.
    destruct (Rmult_integral _ _ Hd) as [H | H]; [lra |].
    assert (t = 0 /\ IZR q = 0) by lra. lra.
  - assert (Hrpos : 1 <= IZR r) by (apply IZR_le; lia).
    assert (Hr2' : IZR r <= 2 * IZR q) by (rewrite <- mult_IZR; apply IZR_le; lia).
    destruct (Z.leb_spec r q) as [Hle | Hgt]; unfold located; simpl.
    + apply IZR_le in Hle. split; nra.
    + assert (Hgt' : IZR q + 1 <= IZR r) by (rewrite <- plus_IZR; apply IZR_le; lia).
      split; nra.
Qed.

Lemma sqrt_bpow_double (e : Z) : R_sqrt.sqrt (bpow (2 * e)) = bpow e.
Proof.
  replace (2 * e)%Z with (e + e)%Z by lia. rewrite bpow_add.
  apply sqrt_square. left. apply bpow_pos.
Qed.

Lemma SFsqrt_core_binary_located (mx : positive) (ex : Z) :
  exists q e l,
    SFsqrt_core_binary prec emax (Z.pos mx) ex = (q, e, l) /\
    (0 <= q)%Z /\
    located (shr_record_of_loc q l) (R_sqrt.sqrt (IZR (Z.pos mx) * bpow ex) / bpow e).
Proof.
  unfold SFsqrt_core_binary.
  set (e' := Z.min (fexp prec emax (Z.div2 (Zdigits2 (Z.pos mx) + ex + 1))) (Z.div2 ex)).
  assert (He' : (2 * e' <= ex)%Z).
  { assert (e' <= Z.div2 ex)%Z by apply Z.le_min_r.
    pose proof (Zdiv2_odd_eqn ex). destruct (Z.odd ex); lia. }
  set (s := (ex - 2 * e')%Z).
  assert (Hs : (0 <= s)%Z) by (unfold s; lia).
  set (m' := match s with
             | 0%Z => Z.pos mx
             | Z.pos _ => Z.shiftl (Z.pos mx) s
             | Z.neg _ => 0%Z
             end).
  assert (Hm' : m' = (Z.pos mx * 2 ^ s)%Z).
  { unfold m'. destruct s as [|p|p]; [lia | | lia].
    now rewrite Z.shiftl_mul_pow2 by lia. }
  assert (Hpow : (0 < 2 ^ s)%Z) by (apply Z.pow_pos_nonneg; lia).
  assert (Hm0 : (0 <= m')%Z) by nia.
  pose proof (sqrtrem_located m' Hm0) as Hloc.
  destruct (Z.sqrtrem m') as [q r]. destruct Hloc as [Hq Hloc].
  eexists q, e', _. split; [reflexivity |]. split; [exact Hq |].
  replace (R_sqrt.sqrt (IZR (Z.pos mx) * bpow ex) / bpow e') with (R_sqrt.sqrt (IZR m')); [exact Hloc |].
  pose proof (bpow_pos e') as Hbe.
  replace ex with (s + 2 * e')%Z by (unfold s; lia).
  rewrite bpow_add, (bpow_IZR s), <- Rmult_assoc, <- mult_IZR, <- Hm' by lia.
  rewrite sqrt_mult by (try apply IZR_le; try (left; apply bpow_pos); lia).
  rewrite sqrt_bpow_double. field. lra.
Qed.

(** Square root: a normal root is within relative error 2^-53 of the exact
    root. *)
Lemma SFsqrt_error (x : spec_float) :
  SF_normal (SFsqrt prec emax x) = true ->
  Rabs (SF2R (SFsqrt prec emax x) - R_sqrt.sqrt (SF2R x))
  <= bpow (-53) * Rabs (SF2R (SFsqrt prec emax x)).
Proof.
  destruct x as [sx|sx| |sx mx ex]; try (simpl; discriminate);
    try (destruct sx; simpl; discriminate).
  destruct sx; [simpl; discriminate |].
  cbn [SFsqrt].
  destruct (SFsqrt_core_binary_located mx ex) as (q & e' & l & -> & Hq & Hloc).
  destruct (binary_round_aux prec emax false q e' l) as [s|s| |s m e] eqn:Hr;
    try (simpl; discriminate).
  intros Hn.
  destruct (binary_round_aux_bound false q e' l _ s m e Hq Hloc Hr) as [-> Hb].
  apply Rle_trans with (2 := SF_normal_large _ _ _ Hn).
  rewrite !SF2R_finite.
  pose proof (bpow_pos e') as He'.
  replace (R_sqrt.sqrt (IZR (Z.pos mx) * bpow ex) / bpow e' * bpow e')
    with (R_sqrt.sqrt (IZR (Z.pos mx) * bpow ex)) in Hb by (field; lra).
  exact Hb.
Qed.

End RoundingSqrt.

(** ** The fused multiply-add: canonical results and rounding error *)

Section Fused.
Local Open Scope R_scope.

Lemma shr_fexp_exponent (m e : Z) (l : location) :
  snd (shr_fexp prec emax m e l) = Z.max e (fexp prec emax (Zdigits2 m + e)).
Proof.
  unfold shr_fexp, shr.
  destruct (fexp prec emax (Zdigits2 m + e) - e)%Z as [|p|p] eqn:Hn; cbn [snd]; lia.
Qed.

(** The number of digits of a mantissa between two powers of two. *)
Lemma Zdigits2_between (m d : Z) :
  (0 <= d)%Z -> (2 ^ d <= m < 2 ^ (d + 1))%Z -> Zdigits2 m = (d + 1)%Z.
Proof.
  intros Hd [Hlo Hhi].
  assert (Hm : (0 < m)%Z) by (pose proof (Z.pow_pos_nonneg 2 d); lia).
  destruct (Zdigits2_bounds m ltac:(lia)) as (H1 & H0 & H2). specialize (H2 Hm).
  destruct (Z_lt_le_dec (Zdigits2 m) (d + 1)%Z) as [Hlt | Hge].
  - assert (2 ^ Zdigits2 m <= 2 ^ d)%Z by (apply Z.pow_le_mono_r; lia). lia.
  - destruct (Z.eq_dec (Zdigits2 m) (d + 1)%Z) as [Heq | Hne]; [exact Heq |].
    assert (2 ^ (d + 1) <= 2 ^ (Zdigits2 m - 1))%Z by (apply Z.pow_le_mono_r; lia). lia.
Qed.

(** The second shift of a rounding leaves a mantissa in canonical form. *)
Lemma shr_fexp_second_canonical (m e : Z) :
  (0 <= m <= 2 ^ 53)%Z -> (-1074 <= e)%Z -> (2 ^ 52 <= m \/ e = -1074)%Z ->
  exists mrs' e',
    shr_fexp prec emax m e loc_Exact = (mrs', e') /\
    (0 <= shr_m mrs')%Z /\
    (forall p, shr_m mrs' = Z.pos p -> canonical_mantissa prec emax p e' = true).
Proof.
  intros Hm He Hcase.
  destruct (Z.eq_dec m (2 ^ 53)%Z) as [-> | Hne].
  - exists (Build_shr_record (2 ^ 52)%Z false false), (e + 1)%Z.
    split; [| split].
    + unfold shr_fexp, fexp, emin, prec, emax.
      change (Zdigits2 (2 ^ 53)%Z) with 54%Z.
      replace (Z.max (54 + e - 53) (3 - 1024 - 53) - e)%Z with 1%Z by lia.
      reflexivity.
    + simpl. lia.
    + cbn [shr_m]. intros p Hp. injection Hp as <-.
      unfold canonical_mantissa, fexp, emin, prec, emax. simpl digits2_pos.
      apply Z.eqb_eq. lia.
  - destruct (Zdigits2_bounds m (proj1 Hm)) as (Hd1 & Hd0 & Hd2).
    assert (Hd : (Zdigits2 m <= 53)%Z).
    { destruct (Z.eq_dec m 0%Z) as [-> | Hm0]; [simpl; lia |].
      destruct (Z_le_gt_dec (Zdigits2 m) 53%Z) as [Hle | Hgt]; [exact Hle | exfalso].
      assert (2 ^ 53 <= 2 ^ (Zdigits2 m - 1))%Z by (apply Z.pow_le_mono_r; lia).
      specialize (Hd2 ltac:(lia)). lia. }
    assert (Hfexp : fexp prec emax (Zdigits2 m + e) = e).
    { unfold fexp, emin, prec, emax. destruct Hcase as [Hbig | ->]; [| lia].
      rewrite (Zdigits2_between m 52) by lia. lia. }
    exists (shr_record_of_loc m loc_Exact), e.
    split; [| split].
    + unfold shr_fexp. rewrite Hfexp, Z.sub_diag. reflexivity.
    + simpl. lia.
    + cbn [shr_record_of_loc shr_m]. intros p ->.
      unfold canonical_mantissa. apply Z.eqb_eq. exact Hfexp.
Qed.

(** Rounding a mantissa whose exponent is not above the canonical one gives
    a float in canonical form: a value [Prim2SF] can return. *)
Lemma binary_round_aux_valid (sx : bool) (mz ez : Z) :
  (0 <= mz)%Z -> (ez <= fexp prec emax (Zdigits2 mz + ez))%Z ->
  valid_binary (binary_round_aux prec emax sx mz ez loc_Exact) = true.
Proof.
  intros Hmz Hez. unfold binary_round_aux.
  destruct (shr_fexp_located mz ez loc_Exact (IZR mz) Hmz eq_refl)
    as (mrs1 & e1 & Heq & Hloc & Hm1 & He1 & Hee1).
  pose proof (shr_fexp_exponent mz ez loc_Exact) as Hexp.
  rewrite Heq in Hexp. cbn [snd] in Hexp. rewrite Z.max_r in Hexp by exact Hez.
  rewrite Heq.
  destruct (round_nearest_even_located _ _ Hloc) as [_ Hrng].
  set (m1 := round_nearest_even (shr_m mrs1) (loc_of_shr_record mrs1)) in *.
  assert (Hcase : (2 ^ 52 <= m1 \/ e1 = -1074)%Z).
  { unfold fexp, emin, prec, emax in Hexp.
    destruct (Z_le_gt_dec (3 - 1024 - 53)%Z (Zdigits2 mz + ez - 53)%Z) as [Hn | Hs];
      [left; rewrite Z.max_l in Hexp by lia | right; rewrite Z.max_r in Hexp by lia; exact Hexp].
    assert (He1' : e1 = (Zdigits2 mz + ez - 53)%Z) by exact Hexp.
    destruct (Z.eq_dec mz 0%Z) as [-> | Hnz].
    { exfalso. simpl in Hexp, Hez. unfold fexp, emin, prec, emax in Hez. lia. }
    destruct (Zdigits2_bounds mz Hmz) as (_ & Hd0 & Hd2). specialize (Hd2 ltac:(lia)).
    pose proof (located_range _ _ Hloc) as [_ Hup].
    assert (Hlow : bpow 52 <= IZR mz * bpow (ez - e1)).
    { replace 52%Z with ((Zdigits2 mz - 1) + (ez - e1))%Z by lia.
      rewrite bpow_add. apply Rmult_le_compat_r; [left; apply bpow_pos |].
      rewrite bpow_IZR by lia. now apply IZR_le. }
    rewrite bpow_IZR in Hlow by lia.
    assert (Hlt : IZR (2 ^ 52) < IZR (shr_m mrs1 + 1)) by (rewrite plus_IZR; lra).
    apply lt_IZR in Hlt. lia. }
  destruct (shr_fexp_second_canonical m1 e1 ltac:(lia) He1 Hcase)
    as (mrs2 & e2 & -> & Hpos & Hcan).
  destruct (shr_m mrs2) as [|m2|m2] eqn:Hm2; [reflexivity | | lia].
  destruct (e2 <=? emax - prec)%Z eqn:Hle; [| reflexivity].
  cbn [SpecFloat.valid_binary]. unfold bounded. now rewrite (Hcan m2 eq_refl), Hle.
Qed.

Lemma digits2_pos_iter_xO (m d : positive) :
  Z.pos (digits2_pos (Pos.iter xO m d)) = (Z.pos (digits2_pos m) + Z.pos d)%Z.
Proof.
  induction d as [|d IH] using Pos.peano_ind.
  - simpl. lia.
  - rewrite Pos.iter_succ. cbn [digits2_pos]. lia.
Qed.

Lemma binary_round_valid (sx : bool) (mx : positive) (ex : Z) :
  valid_binary (binary_round prec emax sx mx ex) = true.
Proof.
  unfold binary_round.
  set (e' := fexp prec emax (Z.pos (digits2_pos mx) + ex)).
  assert (Hal : let '(mz, ez) := shl_align mx ex e' in
                (ez <= fexp prec emax (Zdigits2 (Z.pos mz) + ez))%Z).
  { unfold shl_align. destruct (e' - ex)%Z as [|d|d] eqn:Hd.
    - fold e'. change (Zdigits2 (Z.pos mx)) with (Z.pos (digits2_pos mx)). fold e'. lia.
    - change (Zdigits2 (Z.pos mx)) with (Z.pos (digits2_pos mx)). fold e'. lia.
    - change (Zdigits2 (Z.pos (Pos.iter xO mx d)))
        with (Z.pos (digits2_pos (Pos.iter xO mx d))).
      rewrite digits2_pos_iter_xO.
      replace (Z.pos (digits2_pos mx) + Z.pos d + e')%Z
        with (Z.pos (digits2_pos mx) + ex)%Z by lia.
      fold e'. lia. }
  destruct (shl_align mx ex e') as [mz ez].
  apply binary_round_aux_valid; [lia | exact Hal].
Qed.

Lemma SFadd_valid (x y : spec_float) :
  valid_binary x = true -> valid_binary y = true ->
  valid_binary (SFadd prec emax x y) = true.
Proof.
  intros Hx Hy.
  destruct x as [sx|sx| |sx mx ex], y as [sy|sy| |sy my ey];
    try reflexivity; try exact Hx; try exact Hy;
    try (destruct sx, sy; reflexivity).
  cbn [SFadd].
  destruct (cond_Zopp sx (Z.pos (fst (shl_align mx ex (Z.min ex ey)))) +
            cond_Zopp sy (Z.pos (fst (shl_align my ey (Z.min ex ey)))))%Z;
    cbn [binary_normalize]; [reflexivity | apply binary_round_valid ..].
Qed.

(** The fused multiply-add returns a float in canonical form. *)
Lemma SFfma_valid (x y z : spec_float) :
  valid_binary z = true -> valid_binary (SFfma x y z) = true.
Proof.
  intros Hz.
  destruct x as [sx|sx| |sx mx ex], y as [sy|sy| |sy my ey]; cbn [SFfma SFmul];
    try (apply SFadd_valid; [reflexivity | exact Hz]).
  destruct z as [sz|sz| |sz mz ez]; try reflexivity.
  - apply binary_round_valid.
  - cbn [SFadd].
    destruct (cond_Zopp (xorb sx sy) (Z.pos (fst (shl_align (mx * my) (ex + ey) (Z.min (ex + ey) ez)))) +
              cond_Zopp sz (Z.pos (fst (shl_align mz ez (Z.min (ex + ey) ez)))))%Z;
      cbn [binary_normalize]; [reflexivity | apply binary_round_valid ..].
Qed.

Lemma fma_spec (x y z : float64) :
  Prim2SF (fma x y z) = SFfma (Prim2SF x) (Prim2SF y) (Prim2SF z).
Proof. unfold fma. apply Prim2SF_SF2Prim, SFfma_valid, Prim2SF_valid. Qed.

(** Fused multiply-add: a normal result is within relative error 2^-53 of
    the exact [x * y + z]. *)
Lemma SFfma_error (x y z : spec_float) :
  SF_normal (SFfma x y z) = true ->
  Rabs (SF2R (SFfma x y z) - (SF2R x * SF2R y + SF2R z))
  <= bpow (-53) * Rabs (SF2R (SFfma x y z)).
Proof.
  assert (Hother : forall a, SF2R a = SF2R x * SF2R y ->
            SF_normal (SFadd prec emax a z) = true ->
            Rabs (SF2R (SFadd prec emax a z) - (SF2R x * SF2R y + SF2R z))
            <= bpow (-53) * Rabs (SF2R (SFadd prec emax a z))).
  { intros a <-. apply SFadd_error. }
  assert (Hprod : forall sx mx ex sy my ey,
            SF2R (S754_finite (xorb sx sy) (mx * my) (ex + ey))
            = SF2R (S754_finite sx mx ex) * SF2R (S754_finite sy my ey)).
  { intros. unfold SF2R. rewrite <- cond_Zopp_mul, mult_IZR, bpow_add. ring. }
  destruct x as [sx|sx| |sx mx ex], y as [sy|sy| |sy my ey]; cbn [SFfma SFmul];
    try (apply Hother; simpl; ring).
  destruct z as [sz|sz| |sz mz ez];
    try (apply Hother; apply Hprod).
  destruct (binary_round prec emax (xorb sx sy) (mx * my) (ex + ey)) as [s|s| |s m e] eqn:Hr;
    try (simpl; discriminate).
  intros Hn. destruct (binary_round_bound _ _ _ _ _ _ Hr) as [-> Hb].
  apply Rle_trans with (2 := SF_normal_large _ _ _ Hn).
  rewrite <- Hprod. cbn [SF2R]. rewrite Rplus_0_r.
  now rewrite signed_difference.
Qed.

Lemma float64_fma_error (x y z : float64) :
  float64_normal (fma x y z) = true ->
  Rabs (F2R (fma x y z) - (F2R x * F2R y + F2R z)) <= bpow (-53) * Rabs (F2R (fma x y z)).
Proof. unfold float64_normal, F2R. rewrite fma_spec. apply SFfma_error. Qed.

(** The sum of squares in the terms of IEEE 754, build by build. *)
Lemma sum_of_squares_spec {B : Build} (x y : float64) :
  Prim2SF (sum_of_squares x y) =
    match fused with
    | Unfused => SF64add (SF64mul (Prim2SF x) (Prim2SF x)) (SF64mul (Prim2SF y) (Prim2SF y))
    | FusedFirst => SFfma (Prim2SF x) (Prim2SF x) (SF64mul (Prim2SF y) (Prim2SF y))
    | FusedSecond => SFfma (Prim2SF y) (Prim2SF y) (SF64mul (Prim2SF x) (Prim2SF x))
    end.
Proof.
  unfold sum_of_squares. destruct B; unfold fused;
    now rewrite ?add_spec, ?fma_spec, !mul_spec.
Qed.

End Fused.

Section NormAccuracy.
Local Open Scope R_scope.

Lemma float64_add_error (x y : float64) :
  float64_normal (x + y) = true ->
  Rabs (F2R (x + y) - (F2R x + F2R y)) <= bpow (-53) * Rabs (F2R (x + y)).
Proof. unfold float64_normal, F2R. rewrite add_spec. apply SFadd_error. Qed.

Lemma float64_sqrt_error (x : float64) :
  float64_normal (PrimFloat.sqrt x) = true ->
  Rabs (F2R (PrimFloat.sqrt x) - R_sqrt.sqrt (F2R x))
  <= bpow (-53) * Rabs (F2R (PrimFloat.sqrt x)).
Proof. unfold float64_normal, F2R. rewrite sqrt_spec. apply SFsqrt_error. Qed.

Lemma Rabs_le_between (a b : R) : Rabs a <= b -> - b <= a <= b.
Proof. unfold Rabs. destruct (Rcase_abs a); lra. Qed.

(** A rounded value within relative error u of a non-negative exact value
    is non-negative and brackets it. *)
Lemma rounded_brackets (F E : R) :
  0 <= E -> Rabs (F - E) <= bpow (-53) * Rabs F ->
  0 <= F /\ (1 - bpow (-53)) * F <= E <= (1 + bpow (-53)) * F.
Proof.
  rewrite bpow_neg_53. intros HE H.
  destruct (Rcase_abs F) as [Hneg | Hpos].
  - exfalso. rewrite (Rabs_left F Hneg) in H.
    rewrite Rabs_left in H by lra. lra.
  - rewrite (Rabs_right F Hpos) in H. apply Rabs_le_between in H. lra.
Qed.

Lemma square_le (a b : R) : 0 <= a -> 0 <= b -> a * a <= b * b -> a <= b.
Proof. intros Ha Hb H. destruct (Rle_or_lt a b) as [Hle | Hlt]; [exact Hle | nra]. Qed.

(** Two products, a sum and a root, each within relative error u of its
    result, give the norm within relative error 3u. *)
Lemma norm_real (a b P Q S T : R) :
  0 <= a -> 0 <= b ->
  Rabs (P - a) <= bpow (-53) * Rabs P ->
  Rabs (Q - b) <= bpow (-53) * Rabs Q ->
  Rabs (S - (P + Q)) <= bpow (-53) * Rabs S ->
  Rabs (T - R_sqrt.sqrt S) <= bpow (-53) * Rabs T ->
  Rabs (T - R_sqrt.sqrt (a + b)) <= 3 * bpow (-53) * R_sqrt.sqrt (a + b).
Proof.
  intros Ha Hb HP HQ HS HT.
  destruct (rounded_brackets P a Ha HP) as [HP0 HPb].
  destruct (rounded_brackets Q b Hb HQ) as [HQ0 HQb].
  destruct (rounded_brackets S (P + Q) ltac:(lra) HS) as [HS0 HSb].
  destruct (rounded_brackets T (R_sqrt.sqrt S) (sqrt_pos S) HT) as [HT0 HTb].
  rewrite bpow_neg_53 in *.
  pose proof (sqrt_sqrt S HS0) as Hs2. pose proof (sqrt_pos S) as Hs0.
  pose proof (sqrt_sqrt (a + b) ltac:(lra)) as Hn2. pose proof (sqrt_pos (a + b)) as Hn0.
  set (s := R_sqrt.sqrt S) in *. set (n := R_sqrt.sqrt (a + b)) in *.
  set (u := / 9007199254740992) in *.
  assert (Hu : 0 < u <= / 9007199254740992) by (unfold u; lra).
  assert (Hup : n <= (1 + u) * s).
  { apply square_le; [exact Hn0 | nra |].
    rewrite Hn2. replace ((1 + u) * s * ((1 + u) * s)) with ((1 + u) * ((1 + u) * (s * s))) by ring.
    rewrite Hs2.
    apply Rle_trans with ((1 + u) * (P + Q)); [lra |].
    apply Rmult_le_compat_l; lra. }
  assert (Hlo : (1 - u) * s <= n).
  { apply square_le; [nra | exact Hn0 |].
    rewrite Hn2. replace ((1 - u) * s * ((1 - u) * s)) with ((1 - u) * ((1 - u) * (s * s))) by ring.
    rewrite Hs2.
    apply Rle_trans with ((1 - u) * (P + Q)); [| lra].
    apply Rmult_le_compat_l; lra. }
  assert (Hn_up : n <= (1 + u) * ((1 + u) * T)) by (apply Rle_trans with (1 := Hup); apply Rmult_le_compat_l; lra).
  assert (Hn_lo : (1 - u) * ((1 - u) * T) <= n).
  { apply Rle_trans with (2 := Hlo). apply Rmult_le_compat_l; lra. }
  apply Rabs_le. unfold u in *. lra.
Qed.

(** The magnitude against the exact Euclidean norm, on every build: when
    the two squares, their sum as the build evaluates it and the root are
    normal numbers, the result is within relative error 3 * 2^-53 of the
    norm. A fused product is exact, which [norm_real] takes as a rounding
    without error. *)
Lemma magnitude_accuracy {B : Build} (x y : float64) :
  float64_normal (x * x) = true ->
  float64_normal (y * y) = true ->
  float64_normal (sum_of_squares x y) = true ->
  float64_normal (PrimFloat.sqrt (sum_of_squares x y)) = true ->
  Rabs (F2R (PrimFloat.sqrt (sum_of_squares x y)) - Euclidean_norm x y)
  <= 3 * bpow (-53) * Euclidean_norm x y.
Proof.
  assert (Hexact : forall a : R, Rabs (a - a) <= bpow (-53) * Rabs a).
  { intros a. replace (a - a) with 0 by ring. rewrite Rabs_R0.
    pose proof (bpow_pos (-53)). pose proof (Rabs_pos a). nra. }
  intros Hx Hy Hs Hr. unfold Euclidean_norm.
  unfold sum_of_squares in *. destruct B.
  - apply norm_real with (P := F2R (x * x)) (Q := F2R (y * y)) (S := F2R (x * x + y * y));
      [nra | nra | | | |].
    + now apply float64_mul_error.
    + now apply float64_mul_error.
    + now apply float64_add_error.
    + now apply float64_sqrt_error.
  - apply norm_real with (P := F2R x * F2R x) (Q := F2R (y * y)) (S := F2R (fma x x (y * y)));
      [nra | nra | | | |].
    + apply Hexact.
    + now apply float64_mul_error.
    + now apply float64_fma_error.
    + now apply float64_sqrt_error.
  - apply norm_real with (P := F2R (x * x)) (Q := F2R y * F2R y) (S := F2R (fma y y (x * x)));
      [nra | nra | | | |].
    + now apply float64_mul_error.
    + apply Hexact.
    + rewrite (Rplus_comm (F2R (x * x))). now apply float64_fma_error.
    + now apply float64_sqrt_error.
Qed.

End NormAccuracy.

(** ** The magnitude on the values of the demonstrations *)

Example Vertex_Absolute_3_4 {B : Build} : Vertex_Absolute (mkVertex 3 4) = 5.
Proof. destruct B; vm_compute; reflexivity. Qed.

Example Coordinate_Abs_minus_3_minus_4 {B : Build} :
  with_local (mkCoordinate (-3) (-4)) Coordinate_Abs (mkMem ∅ ∅ "") = Ok 5 (mkMem ∅ ∅ "").
Proof. destruct B; vm_compute; reflexivity. Qed.

Example MyCustomFloat_Abs_minus_10 : MyCustomFloat_Abs (MkMyCustomFloat (-10)) = 10.
Proof. reflexivity. Qed.

(** ** Output of the two demonstrations

    Started with no live variable and [out] already printed, each
    demonstration returns, leaves no variable behind and has appended the
    lines below, in which [fmt_float64] stands for the rendering of a
    [float64]. The lines are the same on every build: the sums of squares
    of the demonstrations are exact. *)

(** X15: started with no live variable, the introduction demonstration
    returns without a panic, leaves no variable behind and prints fifteen
    lines: after the value-receiver calls the vertex still reads 3 4, after
    the pointer-receiver calls it reads 30 40, and the four scalings of v2 by
    2 show 6 8, 12 16, 24 32 and 48 64. *)
Lemma DemoImplementationMethodsIntroduction_output
    {B : Build} (fmt_float64 : float64 -> string) (out : string) :
  DemoImplementationMethodsIntroduction fmt_float64 (mkMem ∅ ∅ out) =
  Ok tt (mkMem ∅ ∅ (foldl String.append out [
    line ["Method call (v1):"; fmt_float64 5];
    line ["Function call (v1):"; fmt_float64 5];
    line ["Abs method call (v1):"; fmt_float64 10];
    line ["Value receiver method call (v1):";
          braces [fmt_float64 3; fmt_float64 4]; fmt_float64 5];
    line ["Pointer receiver method call (v1):";
          braces [fmt_float64 30; fmt_float64 40]; fmt_float64 50];
    line ["Function call with value (v1):";
          braces [fmt_float64 3; fmt_float64 4]; fmt_float64 5];
    line ["Function call with pointer (v1):";
          braces [fmt_float64 30; fmt_float64 40]; fmt_float64 50];
    line ["Function call with pointer (v2):"; braces [fmt_float64 6; fmt_float64 8]];
    line ["Function call with pointer (p2):"; braces [fmt_float64 12; fmt_float64 16]];
    line ["Pointer receiver method call (v2):"; braces [fmt_float64 24; fmt_float64 32]];
    line ["Pointer receiver method call (p2):"; braces [fmt_float64 48; fmt_float64 64]];
    line ["Function call with pointer (v3):"; braces [fmt_float64 3; fmt_float64 4]];
    line ["Function call with pointer (p3):"; braces [fmt_float64 3; fmt_float64 4]];
    line ["Value receiver method call (v3):"; braces [fmt_float64 3; fmt_float64 4]];
    line ["Value receiver method call (p3):"; braces [fmt_float64 3; fmt_float64 4]]])).
Proof. destruct B; vm_compute; reflexivity. Qed.

(** X16: started with no live variable, the interfaces demonstration
    returns without a panic, leaves no variable behind and prints nine
    lines: the two magnitudes taken through the interface, each followed by
    the description of the value held, the description of the nil pointer,
    the sentinel its [Abs] prints, and the three descriptions of the empty
    interface. *)
Lemma DemoImplementationMethodsAndInterface_output
    {B : Build} (fmt_float64 : float64 -> string) (out : string) :
  DemoImplementationMethodsAndInterface fmt_float64 (mkMem ∅ ∅ out) =
  Ok tt (mkMem ∅ ∅ (foldl String.append out [
    line ["Abs method called on MyFloat:"; fmt_float64 (PrimFloat.sqrt 2)];
    "(" +:+ fmt_float64 (- PrimFloat.sqrt 2) +:+ ", methods.MyFloat)" +:+ newline;
    line ["Abs method called on Coordinate:"; fmt_float64 5];
    "(" +:+ ("&" +:+ braces [fmt_float64 (-3); fmt_float64 (-4)])
        +:+ ", *methods.Coordinate)" +:+ newline;
    line ["(<nil>, *methods.Coordinate)"];
    line ["<nil>"];
    line ["(<nil>, <nil>)"];
    line ["(42, int)"];
    line ["(hello, string)"]])).
Proof. destruct B; vm_compute; reflexivity. Qed.

(** ** The claims *)

(** C1: on every build, for every coordinate pair (x, y) the magnitude is
    [math.Sqrt] of [x*x + y*y] as the build evaluates it, and the
    value-receiver method [Vertex.Absolute] and the pointer-receiver method
    [Coordinate.Abs], on a non-nil receiver holding the same coordinates,
    return the same result. The square root is the correctly rounded one of
    IEEE 754; the sum of squares is, by the build, the rounded sum of the two
    rounded products, or one rounded product to which the other is added by a
    fused multiply-add, with a single rounding. *)
Theorem magnitude_same_for_both_receivers {B : Build} (m : mem) (l : loc) (x y : float64) :
  coordinates m !! l = Some (mkCoordinate x y) ->
  Vertex_Absolute (mkVertex x y) = PrimFloat.sqrt (sum_of_squares x y) /\
  Coordinate_Abs (addr l) m = Ok (PrimFloat.sqrt (sum_of_squares x y)) m /\
  Coordinate_Abs (addr l) m = Ok (Vertex_Absolute (mkVertex x y)) m /\
  Prim2SF (Vertex_Absolute (mkVertex x y)) =
    SF64sqrt
      match fused with
      | Unfused => SF64add (SF64mul (Prim2SF x) (Prim2SF x)) (SF64mul (Prim2SF y) (Prim2SF y))
      | FusedFirst => SFfma (Prim2SF x) (Prim2SF x) (SF64mul (Prim2SF y) (Prim2SF y))
      | FusedSecond => SFfma (Prim2SF y) (Prim2SF y) (SF64mul (Prim2SF x) (Prim2SF x))
      end.
Proof.
  intros Hl.
  assert (Habs : Coordinate_Abs (addr l) m = Ok (PrimFloat.sqrt (sum_of_squares x y)) m).
  { unfold Coordinate_Abs, mbind, M_bind, deref. simpl. now rewrite Hl. }
  split; [reflexivity |]. split; [exact Habs |]. split; [exact Habs |].
  unfold Vertex_Absolute. simpl. now rewrite sqrt_spec, sum_of_squares_spec.
Qed.

Lemma magnitude_same_for_both_receivers_witness :
  let B : Build := FusedFirst in
  let m := mkMem ∅ {[ 1%positive := mkCoordinate (-3) (-4) ]} "" in
  Vertex_Absolute (mkVertex (-3) (-4)) = PrimFloat.sqrt (sum_of_squares (-3) (-4)) /\
  Coordinate_Abs (addr 1%positive) m = Ok (PrimFloat.sqrt (sum_of_squares (-3) (-4))) m /\
  Coordinate_Abs (addr 1%positive) m = Ok (Vertex_Absolute (mkVertex (-3) (-4))) m /\
  Prim2SF (Vertex_Absolute (mkVertex (-3) (-4))) =
    SF64sqrt (SFfma (Prim2SF (-3)) (Prim2SF (-3)) (SF64mul (Prim2SF (-4)) (Prim2SF (-4)))).
Proof.
  apply (@magnitude_same_for_both_receivers FusedFirst _ 1%positive (-3) (-4)). reflexivity.
Defined.

(** C2: on a nil [*Coordinate] receiver [Coordinate.Abs] returns exactly
    zero and does not panic; it prints the sentinel line instead. The same
    holds when the call goes through an [Absoluteness] value holding the nil
    pointer. *)
Theorem Coordinate_Abs_nil_receiver {B : Build} (m : mem) :
  let m' := mkMem (vertices m) (coordinates m) (stdout m +:+ "<nil>" +:+ newline) in
  Coordinate_Abs nil m = Ok 0 m' /\
  Absoluteness_Abs (to_Absoluteness (nil : ptr Coordinate)) m = Ok 0 m'.
Proof. split; reflexivity. Qed.

(** C3: the value-receiver scaling variant, as the method
    [v.ScaleWithValue(f)] or as the function [ScaleWithValueFunction(v, f)],
    leaves the caller's variable unchanged: read after the call, the variable
    holds the X and Y it held before, and nothing else of the store changed. *)
Theorem value_receiver_scaling_leaves_caller_unchanged
    (m : mem) (l : loc) (v : Vertex) (f : float64) :
  vertices m !! l = Some v ->
  (c ← deref (addr l); Vertex_ScaleWithValue c f;; deref (addr l)) m = Ok v m /\
  (c ← deref (addr l); ScaleWithValueFunction c f;; deref (addr l)) m = Ok v m.
Proof.
  intros Hl.
  change (ScaleWithValueFunction) with (Vertex_ScaleWithValue).
  change (Vertex_ScaleWithValue) with
    (fun (v0 : Vertex) (f : float64) => with_local v0 (fun p => Vertex_ScaleWithPointer p f)).
  assert (Hcall : (c ← deref (addr l);
                   with_local c (fun p => Vertex_ScaleWithPointer p f);; deref (addr l)) m
                  = Ok v m).
  { unfold mbind at 1. unfold M_bind at 1. unfold deref at 1. simpl. rewrite Hl.
    unfold mbind, M_bind. rewrite scale_a_copy. unfold deref. simpl. now rewrite Hl. }
  split; exact Hcall.
Qed.

Lemma value_receiver_scaling_leaves_caller_unchanged_witness :
  let m := mkMem {[ 1%positive := mkVertex 3 4 ]} ∅ "" in
  (c ← deref (addr 1%positive); Vertex_ScaleWithValue c 10;; deref (addr 1%positive)) m
    = Ok (mkVertex 3 4) m /\
  (c ← deref (addr 1%positive); ScaleWithValueFunction c 10;; deref (addr 1%positive)) m
    = Ok (mkVertex 3 4) m.
Proof.
  apply (value_receiver_scaling_leaves_caller_unchanged _ 1%positive (mkVertex 3 4) 10).
  reflexivity.
Defined.



(** C5: a method call on a wholly nil [Absoluteness] value, which holds
    neither a value nor a type, is a fault that ends the run: whatever
    follows the call does not execute and no result is produced. The call on
    a non-nil interface value whose payload is a nil [*Coordinate] is legal
    and returns. *)
Theorem nil_interface_method_call_is_fatal
    {B : Build} (fmt_float64 : float64 -> string) (m : mem) :
  Absoluteness_Abs None m = Panic NilDereference m /\
  (forall (A : Type) (k : float64 -> M A),
     (Absoluteness_Abs None ≫= k) m = Panic NilDereference m) /\
  nil_interface_call fmt_float64 m =
    Panic NilDereference
      (mkMem (vertices m) (coordinates m) (stdout m +:+ "(<nil>, <nil>)" +:+ newline)) /\
  Absoluteness_Abs (to_Absoluteness (nil : ptr Coordinate)) m =
    Ok 0 (mkMem (vertices m) (coordinates m) (stdout m +:+ "<nil>" +:+ newline)).
Proof.
  split; [reflexivity |].
  split; [intros A k; now apply panic_propagates |].
  split; reflexivity.
Qed.

(** C6, as amended: when 1/k is a normal float64 number and each
    coordinate c is in range for the round trip, that is, c is a zero or the
    products c*k and (c*k)*(1/k) are normal numbers (nothing overflows to an
    infinity, underflows to zero or a subnormal, or is NaN), scaling through
    the reference by k and then by 1/k succeeds and leaves each coordinate
    within relative error 2^-51 of its original value; a zero coordinate
    comes back as a zero. *)
Theorem scale_round_trip_within_tolerance
    (m : mem) (l : loc) (v : Vertex) (k : float64) :
  vertices m !! l = Some v ->
  float64_normal (1 / k) = true ->
  round_trip_in_range (Vertex_X v) k = true ->
  round_trip_in_range (Vertex_Y v) k = true ->
  exists (m' : mem) (v' : Vertex),
    (Vertex_ScaleWithPointer (addr l) k;; Vertex_ScaleWithPointer (addr l) (1 / k)) m
      = Ok tt m' /\
    vertices m' !! l = Some v' /\
    within_tolerance (bpow (-51)) (Vertex_X v') (Vertex_X v) /\
    within_tolerance (bpow (-51)) (Vertex_Y v') (Vertex_Y v) /\
    (float64_zero (Vertex_X v) = true -> float64_zero (Vertex_X v') = true) /\
    (float64_zero (Vertex_Y v) = true -> float64_zero (Vertex_Y v') = true).
Proof.
  intros Hl Hk HX HY.
  eexists; eexists. split; [| split].
  - unfold mbind, M_bind. rewrite (Vertex_scale_in_place _ _ _ _ Hl).
    rewrite (Vertex_scale_in_place _ l (mkVertex (Vertex_X v * k) (Vertex_Y v * k)))
      by apply lookup_insert_eq.
    reflexivity.
  - simpl. rewrite insert_insert_eq. apply lookup_insert_eq.
  - simpl. split; [now apply coordinate_round_trip_in_range |].
    split; [now apply coordinate_round_trip_in_range |].
    split; now apply zero_round_trip.
Qed.

Lemma scale_round_trip_within_tolerance_witness :
  let m := mkMem {[ 1%positive := mkVertex 3 0 ]} ∅ "" in
  exists (m' : mem) (v' : Vertex),
    (Vertex_ScaleWithPointer (addr 1%positive) 10;;
     Vertex_ScaleWithPointer (addr 1%positive) (1 / 10)) m = Ok tt m' /\
    vertices m' !! 1%positive = Some v' /\
    within_tolerance (bpow (-51)) (Vertex_X v') 3 /\
    within_tolerance (bpow (-51)) (Vertex_Y v') 0 /\
    (float64_zero 3 = true -> float64_zero (Vertex_X v') = true) /\
    (float64_zero 0 = true -> float64_zero (Vertex_Y v') = true).
Proof.
  apply (scale_round_trip_within_tolerance _ 1%positive (mkVertex 3 0) 10);
    reflexivity.
Defined.

(** The products have to stay out of the subnormal range as well: the
    smallest normal number scaled by 2^-60 underflows to zero, and scaling
    zero by 2^60 leaves zero. *)
Example scale_round_trip_underflows :
  float64_normal (1 / 0x1p-60) = true /\
  float64_normal 0x1p-1022 = true /\
  0x1p-1022 * 0x1p-60 * (1 / 0x1p-60) = 0.
Proof. repeat split. Qed.

(** C6 as stated fails: with X = 0x1.1ccf385ebc8ap+1023 (about 1e308) and
    k = 10, which is not zero, X*k overflows to +infinity and infinity
    times 1/k is infinity, which no tolerance relates to X. *)
Lemma scale_round_trip_overflows :
  ~ ((10 =? 0)%float = false ->
     exists (eps : R) (m' : mem) (v' : Vertex),
       (Vertex_ScaleWithPointer (addr 1%positive) 10;;
        Vertex_ScaleWithPointer (addr 1%positive) (1 / 10))
         (mkMem {[ 1%positive := mkVertex 0x1.1ccf385ebc8ap+1023 4 ]} ∅ "") = Ok tt m' /\
       vertices m' !! 1%positive = Some v' /\
       within_tolerance eps (Vertex_X v') 0x1.1ccf385ebc8ap+1023).
Proof.
  intros H. destruct (H eq_refl) as (eps & m' & v' & Hrun & Hl & Hfin & _).
  vm_compute in Hrun. injection Hrun as <-.
  vm_compute in Hl. injection Hl as <-.
  vm_compute in Hfin. discriminate Hfin.
Qed.

(** C7: [MyFloat.Abs] returns [-f] when [f < 0] and [f] otherwise. Called
    through an [Absoluteness] value holding [MyFloat(-math.Sqrt(2))] it
    returns [math.Sqrt(2)], the float64 [6369051672525773 * 2^-52], which is
    within half a unit in the last place of the real square root of 2: with
    [n = 6369051672525773], the square of [(2n - 1) * 2^-53] is below 2 and
    the square of [2n * 2^-53] is above 2. *)
Theorem MyFloat_Abs_is_absolute_value :
  (forall f : float64, MyFloat_Abs (MkMyFloat f) = if f <? 0 then - f else f) /\
  (forall m : mem,
     Absoluteness_Abs (to_Absoluteness (MkMyFloat (- PrimFloat.sqrt 2))) m
     = Ok (PrimFloat.sqrt 2) m) /\
  Prim2SF (PrimFloat.sqrt 2) = S754_finite false 6369051672525773 (-52) /\
  ((2 * 6369051672525773 - 1) ^ 2 < 2 * 2 ^ 106 < (2 * 6369051672525773) ^ 2)%Z.
Proof.
  split; [intros f; reflexivity |].
  split; [intros m; reflexivity |].
  split; [reflexivity |].
  split; vm_compute; reflexivity.
Qed.

(** C8: [DescribeGeneric] applied to an [interface{}] variable holding the
    integer 42 and then to the same variable holding the string hello prints,
    one line after the other, each value with its concrete type label. *)
Theorem DescribeGeneric_int_then_string (fmt_float64 : float64 -> string) (m : mem) :
  (let i : any_iface := to_any 42%Z in
   DescribeGeneric fmt_float64 i;;
   let i : any_iface := to_any "hello" in
   DescribeGeneric fmt_float64 i) m
  = Ok tt (mkMem (vertices m) (coordinates m)
             (stdout m +:+ "(42, int)" +:+ newline +:+ "(hello, string)" +:+ newline)).
Proof.
  unfold DescribeGeneric, Printf_v_T, any_operand, to_any, write, mbind, M_bind, mret, M_ret.
  simpl. now rewrite append_assoc.
Qed.

(** C9: each method equals its plain-function counterpart: [v.Absolute()]
    and [AbsoluteFunction(v)] return the same value, and
    [v.ScaleWithPointer(f)] and [ScaleWithPointerFunction(&v, f)] have the
    same outcome and final store, from every store and for every pointer;
    likewise the value variants. *)
Theorem methods_equal_their_functions {B : Build} :
  (forall v : Vertex, Vertex_Absolute v = AbsoluteFunction v) /\
  (forall (p : ptr Vertex) (f : float64) (m : mem),
     Vertex_ScaleWithPointer p f m = ScaleWithPointerFunction p f m) /\
  (forall (v : Vertex) (f : float64) (m : mem),
     Vertex_ScaleWithValue v f m = ScaleWithValueFunction v f m).
Proof.
  split; [intros v; destruct v; reflexivity |].
  split; [intros p f m; destruct p; reflexivity |].
  intros v f m. reflexivity.
Qed.

(** C10: [Coordinate.Abs] has a pointer receiver but does not modify it:
    for a non-nil receiver the call returns and leaves the store, hence the X
    and Y of the pointed-to Coordinate, as it was. *)
Theorem Coordinate_Abs_does_not_modify_receiver
    {B : Build} (m : mem) (l : loc) (c : Coordinate) :
  coordinates m !! l = Some c ->
  exists (r : float64) (m' : mem),
    Coordinate_Abs (addr l) m = Ok r m' /\
    coordinates m' !! l = Some c /\
    m' = m.
Proof.
  intros Hl. unfold Coordinate_Abs, mbind, M_bind, deref. simpl. rewrite Hl.
  eexists; eexists. split; [reflexivity |]. split; [exact Hl | reflexivity].
Qed.

Lemma Coordinate_Abs_does_not_modify_receiver_witness :
  let B : Build := FusedFirst in
  let m := mkMem ∅ {[ 7%positive := mkCoordinate (-3) (-4) ]} "" in
  exists (r : float64) (m' : mem),
    Coordinate_Abs (addr 7%positive) m = Ok r m' /\
    coordinates m' !! 7%positive = Some (mkCoordinate (-3) (-4)) /\
    m' = m.
Proof.
  apply (@Coordinate_Abs_does_not_modify_receiver FusedFirst _ 7%positive
           (mkCoordinate (-3) (-4))).
  reflexivity.
Defined.


(** ** Exact products: the factors 1 and -1 *)

Lemma shr_fexp_shifted (mx : positive) (ex : Z) :
  fexp prec emax (Z.pos (digits2_pos mx) + ex) = ex ->
  shr_fexp prec emax (Z.pos (Pos.iter xO mx 52)) (ex + -52) loc_Exact
  = (Build_shr_record (Z.pos mx) false false, ex).
Proof.
  intros Hcan. unfold shr_fexp.
  assert (Hd : Zdigits2 (Z.pos (Pos.iter xO mx 52)) = (Z.pos (digits2_pos mx) + 52)%Z).
  { simpl. lia. }
  rewrite Hd.
  replace (Z.pos (digits2_pos mx) + 52 + (ex + -52))%Z with (Z.pos (digits2_pos mx) + ex)%Z by lia.
  rewrite Hcan. replace (ex - (ex + -52))%Z with 52%Z by lia.
  unfold shr. simpl. f_equal. lia.
Qed.

Lemma shr_fexp_canonical (mx : positive) (ex : Z) :
  fexp prec emax (Z.pos (digits2_pos mx) + ex) = ex ->
  shr_fexp prec emax (Z.pos mx) ex loc_Exact
  = (Build_shr_record (Z.pos mx) false false, ex).
Proof.
  intros Hcan. unfold shr_fexp. cbn [Zdigits2]. rewrite Hcan, Z.sub_diag. reflexivity.
Qed.

(** Multiplying a float64 by plus or minus one only sets the sign. *)
Lemma SFmul_unit (s sy : bool) (mx : positive) (ex : Z) :
  bounded prec emax mx ex = true ->
  SFmul prec emax (S754_finite s mx ex) (S754_finite sy 4503599627370496 (-52))
  = S754_finite (xorb s sy) mx ex.
Proof.
  intros Hb. apply andb_prop in Hb as [Hcan Hle].
  unfold canonical_mantissa in Hcan. apply Z.eqb_eq in Hcan.
  cbn [SFmul]. rewrite Pos.mul_comm.
  change (4503599627370496 * mx)%positive with (Pos.iter xO mx 52).
  unfold binary_round_aux. rewrite (shr_fexp_shifted mx ex Hcan).
  cbn [shr_m loc_of_shr_record round_nearest_even].
  rewrite (shr_fexp_canonical mx ex Hcan). cbn [shr_m]. now rewrite Hle.
Qed.


Lemma mul_minus_one (x : float64) : x * (-1) = - x.
Proof.
  apply Prim2SF_inj. rewrite mul_spec, opp_spec.
  change (Prim2SF (-1)) with (S754_finite true 4503599627370496 (-52)).
  pose proof (Prim2SF_valid x) as Hv.
  destruct (Prim2SF x) as [s|s| |s m e]; unfold SF64mul.
  - simpl. now destruct s.
  - simpl. now destruct s.
  - reflexivity.
  - rewrite (SFmul_unit s true m e Hv). now destruct s.
Qed.

Lemma opp_involutive (x : float64) : - - x = x.
Proof.
  apply Prim2SF_inj. rewrite !opp_spec.
  destruct (Prim2SF x) as [s|s| |s m e]; simpl; now rewrite ?Bool.negb_involutive.
Qed.

(** ** Signs and special values *)

Lemma binary_round_aux_not_below_zero (mx ex : Z) (lx : location) :
  SFltb (binary_round_aux prec emax false mx ex lx) (S754_zero false) = false.
Proof.
  unfold binary_round_aux.
  destruct (shr_fexp prec emax mx ex lx) as [mrs1 e1].
  destruct (shr_fexp prec emax _ e1 loc_Exact) as [mrs2 e2].
  destruct (shr_m mrs2); [reflexivity | | reflexivity].
  destruct (e2 <=? emax - prec)%Z; reflexivity.
Qed.

Lemma sqrt_not_below_zero (x : float64) : (PrimFloat.sqrt x <? 0) = false.
Proof.
  rewrite ltb_spec, sqrt_spec. change (Prim2SF 0) with (S754_zero false).
  unfold SF64sqrt, SFsqrt.
  destruct (Prim2SF x) as [s|[|]| |[|] m e]; try reflexivity.
  destruct (SFsqrt_core_binary prec emax (Z.pos m) e) as [[mz ez] lz].
  apply binary_round_aux_not_below_zero.
Qed.

Section Shape.
Local Open Scope R_scope.

(** Rounding a non-negative mantissa gives a zero, a finite number or an
    infinity of the sign asked for, never NaN. *)
Lemma binary_round_aux_shape (sx : bool) (mx : positive) (ex : Z) :
  let r := binary_round_aux prec emax sx (Z.pos mx) ex loc_Exact in
  r = S754_zero sx \/ r = S754_infinity sx \/ exists m e, r = S754_finite sx m e.
Proof.
  unfold binary_round_aux.
  destruct (shr_fexp_located (Z.pos mx) ex loc_Exact (IZR (Z.pos mx)) ltac:(lia) ltac:(reflexivity))
    as (mrs1 & e1 & -> & Hloc & Hm1 & He1 & Hee1).
  destruct (round_nearest_even_located _ _ Hloc) as [_ Hrng].
  set (m1 := round_nearest_even (shr_m mrs1) (loc_of_shr_record mrs1)) in *.
  destruct (shr_fexp_exact m1 e1 ltac:(lia) He1) as (mrs2 & e2 & -> & Hval & _).
  destruct (shr_m mrs2) as [|m2|m2] eqn:Hm2.
  - now left.
  - destruct (e2 <=? emax - prec)%Z; [right; right; eauto | right; now left].
  - exfalso.
    assert (0 <= IZR m1 * bpow e1) by (pose proof (bpow_pos e1); assert (0 <= IZR m1) by (apply IZR_le; lia); nra).
    assert (IZR (Z.neg m2) < 0) by (apply IZR_lt; lia).
    pose proof (bpow_pos e2). nra.
Qed.

End Shape.

(** A product of a number with itself is never NaN or negative. *)
Lemma SFmul_self_shape (x : spec_float) :
  x <> S754_nan ->
  SFmul prec emax x x = S754_zero false \/ SFmul prec emax x x = S754_infinity false \/
  exists m e, SFmul prec emax x x = S754_finite false m e.
Proof.
  intros Hx. destruct x as [s|s| |s m e]; try congruence.
  - left. now destruct s.
  - right; left. now destruct s.
  - cbn [SFmul]. replace (xorb s s) with false by now destruct s.
    apply binary_round_aux_shape.
Qed.

Lemma SFmul_infinity_self (s : bool) :
  SFmul prec emax (S754_infinity s) (S754_infinity s) = S754_infinity false.
Proof. now destruct s. Qed.

Lemma mul_opp_opp (x : float64) : (- x) * (- x) = x * x.
Proof.
  apply Prim2SF_inj. rewrite !mul_spec, opp_spec.
  destruct (Prim2SF x) as [s|s| |s m e]; unfold SF64mul; simpl; try reflexivity;
    destruct s; reflexivity.
Qed.

Lemma fma_opp_opp (x z : float64) : fma (- x) (- x) z = fma x x z.
Proof.
  unfold fma. f_equal. rewrite opp_spec.
  destruct (Prim2SF x) as [s|s| |s m e]; simpl; try reflexivity; destruct s; reflexivity.
Qed.

Lemma SFadd_nan (a : spec_float) : SFadd prec emax a S754_nan = S754_nan.
Proof. now destruct a. Qed.

Lemma SFfma_nan (x y : spec_float) : SFfma x y S754_nan = S754_nan.
Proof. destruct x, y; cbn [SFfma]; first [apply SFadd_nan | reflexivity]. Qed.

(** The square of an infinity absorbs a square added to it. *)
Lemma SFfma_infinity_self (s : bool) (y : spec_float) :
  y <> S754_nan ->
  SFfma (S754_infinity s) (S754_infinity s) (SFmul prec emax y y) = S754_infinity false.
Proof.
  intros Hy. cbn [SFfma]. rewrite SFmul_infinity_self.
  destruct (SFmul_self_shape y Hy) as [-> | [-> | (m & e & ->)]]; reflexivity.
Qed.

Lemma SFfma_self_infinity (y : spec_float) :
  y <> S754_nan -> SFfma y y (S754_infinity false) = S754_infinity false.
Proof. intros Hy. destruct y as [s|s| |s m e]; try congruence; try reflexivity; now destruct s. Qed.

Lemma add_comm (a b : float64) : a + b = b + a.
Proof.
  apply Prim2SF_inj. rewrite !add_spec. unfold SF64add.
  destruct (Prim2SF a) as [sa|sa| |sa ma ea], (Prim2SF b) as [sb|sb| |sb mb eb];
    try reflexivity; try (destruct sa, sb; reflexivity).
  cbn [SFadd]. now rewrite (Z.min_comm eb ea), Z.add_comm.
Qed.

(** ** Further properties of the package *)

(** X1: [MyFloat.Abs] and [MyCustomFloat.Abs] never return a number below
    zero, whatever the argument (NaN and the infinities included), and
    applying one to its own result changes nothing. *)
Theorem Abs_is_never_negative_and_idempotent (f : float64) :
  (MyFloat_Abs (MkMyFloat f) <? 0) = false /\
  (MyCustomFloat_Abs (MkMyCustomFloat f) <? 0) = false /\
  MyFloat_Abs (MkMyFloat (MyFloat_Abs (MkMyFloat f))) = MyFloat_Abs (MkMyFloat f) /\
  MyCustomFloat_Abs (MkMyCustomFloat (MyCustomFloat_Abs (MkMyCustomFloat f)))
    = MyCustomFloat_Abs (MkMyCustomFloat f).
Proof.
  assert (Hneg : ((if f <? 0 then - f else f) <? 0) = false).
  { destruct (f <? 0) eqn:Hlt; [| exact Hlt].
    rewrite ltb_spec in *. rewrite opp_spec.
    change (Prim2SF 0) with (S754_zero false) in *.
    destruct (Prim2SF f) as [s|s| |s m e]; try (cbv in Hlt; discriminate);
      destruct s; cbv in Hlt |- *; congruence. }
  unfold MyFloat_Abs, MyCustomFloat_Abs. simpl.
  repeat split; try exact Hneg; destruct (f <? 0) eqn:E; rewrite Hneg; reflexivity.
Qed.

(** X2: except on negative zero, [MyFloat.Abs] and [MyCustomFloat.Abs]
    return the IEEE 754 absolute value of their argument. *)
Theorem Abs_is_absolute_value_unless_negative_zero (f : float64) :
  Prim2SF f <> S754_zero true ->
  MyFloat_Abs (MkMyFloat f) = PrimFloat.abs f /\
  MyCustomFloat_Abs (MkMyCustomFloat f) = PrimFloat.abs f.
Proof.
  intros Hz.
  assert (H : (if f <? 0 then - f else f) = PrimFloat.abs f).
  { apply Prim2SF_inj. rewrite abs_spec.
    destruct (f <? 0) eqn:Hlt; rewrite ltb_spec in Hlt; rewrite ?opp_spec;
      change (Prim2SF 0) with (S754_zero false) in Hlt;
      destruct (Prim2SF f) as [s|s| |s m e]; try (cbv in Hlt; discriminate);
      try reflexivity; destruct s; cbv in Hlt |- *; congruence. }
  unfold MyFloat_Abs, MyCustomFloat_Abs. simpl. split; exact H.
Qed.

Lemma Abs_is_absolute_value_unless_negative_zero_witness :
  MyFloat_Abs (MkMyFloat (-10)) = PrimFloat.abs (-10) /\
  MyCustomFloat_Abs (MkMyCustomFloat (-10)) = PrimFloat.abs (-10).
Proof.
  apply (Abs_is_absolute_value_unless_negative_zero (-10)).
  vm_compute. discriminate.
Defined.

(** X3: on every build the magnitude is never below zero:
    [Vertex.Absolute] and [AbsoluteFunction] on every Vertex, and
    [Coordinate.Abs] whenever it returns, on every receiver and store. *)
Theorem magnitude_is_never_negative {B : Build} :
  (forall v : Vertex, (Vertex_Absolute v <? 0) = false) /\
  (forall v : Vertex, (AbsoluteFunction v <? 0) = false) /\
  (forall (p : ptr Coordinate) (m : mem),
     match Coordinate_Abs p m with
     | Ok r _ => (r <? 0) = false
     | Panic _ _ => True
     end).
Proof.
  split; [intros v; apply sqrt_not_below_zero |].
  split; [intros v; apply sqrt_not_below_zero |].
  intros [|l] m; [reflexivity |].
  unfold Coordinate_Abs, mbind, M_bind, deref. simpl.
  destruct (coordinates m !! l); [apply sqrt_not_below_zero | exact I].
Qed.

(** X4: on every build the magnitude does not depend on the signs of the
    coordinates. Exchanging the coordinates exchanges the product that a
    fusing build fuses: a build that rounds every operation returns the same
    magnitude for (y, x) as for (x, y), and a build fusing the first product
    returns for (y, x) what a build fusing the second returns for (x, y); on
    one fusing build the order can change the last digit, as for
    (0x1.999999999999ap-3, 0.5), the doubles nearest 0.2 and 0.5. *)
Theorem magnitude_symmetries {B : Build} (x y : float64) :
  Vertex_Absolute (mkVertex (- x) y) = Vertex_Absolute (mkVertex x y) /\
  Vertex_Absolute (mkVertex x (- y)) = Vertex_Absolute (mkVertex x y) /\
  Vertex_Absolute (mkVertex (- x) (- y)) = Vertex_Absolute (mkVertex x y) /\
  @Vertex_Absolute Unfused (mkVertex y x) = @Vertex_Absolute Unfused (mkVertex x y) /\
  @Vertex_Absolute FusedFirst (mkVertex y x) = @Vertex_Absolute FusedSecond (mkVertex x y) /\
  @Vertex_Absolute FusedFirst (mkVertex 0x1.999999999999ap-3 0.5) = 0x1.13b86ea20ae5cp-1 /\
  @Vertex_Absolute FusedFirst (mkVertex 0.5 0x1.999999999999ap-3) = 0x1.13b86ea20ae5dp-1.
Proof.
  unfold Vertex_Absolute, sum_of_squares. simpl.
  split; [destruct B; unfold fused; now rewrite ?mul_opp_opp, ?fma_opp_opp |].
  split; [destruct B; unfold fused; now rewrite ?mul_opp_opp, ?fma_opp_opp |].
  split; [destruct B; unfold fused; now rewrite ?mul_opp_opp, ?fma_opp_opp |].
  split; [unfold fused; now rewrite (add_comm (y * y) (x * x)) |].
  split; [reflexivity |].
  split; vm_compute; reflexivity.
Qed.

(** X5: on every build a NaN coordinate makes the magnitude NaN. *)
Theorem magnitude_of_NaN_is_NaN {B : Build} (y : float64) :
  Vertex_Absolute (mkVertex nan y) = nan /\
  Vertex_Absolute (mkVertex y nan) = nan.
Proof.
  unfold Vertex_Absolute. simpl.
  split; apply Prim2SF_inj; rewrite sqrt_spec, sum_of_squares_spec;
    change (Prim2SF nan) with S754_nan; unfold SF64sqrt, SF64add, SF64mul;
    destruct B; unfold fused; cbn [SFmul]; rewrite ?SFfma_nan, ?SFadd_nan; reflexivity.
Qed.

(** X6: on every build an infinite coordinate, of either sign, makes the
    magnitude +infinity when the other coordinate is not NaN. *)
Theorem magnitude_of_infinity_is_infinity {B : Build} (x y : float64) (s : bool) :
  Prim2SF x = S754_infinity s ->
  Prim2SF y <> S754_nan ->
  Vertex_Absolute (mkVertex x y) = infinity /\
  Vertex_Absolute (mkVertex y x) = infinity.
Proof.
  intros Hx Hy. unfold Vertex_Absolute. simpl.
  assert (Hsum : forall a b : spec_float,
            a = S754_infinity false \/ b = S754_infinity false ->
            (a = S754_zero false \/ a = S754_infinity false \/
             exists m e, a = S754_finite false m e) ->
            (b = S754_zero false \/ b = S754_infinity false \/
             exists m e, b = S754_finite false m e) ->
            SFadd prec emax a b = S754_infinity false).
  { intros a b [-> | ->] Ha Hb.
    - destruct Hb as [-> | [-> | (m & e & ->)]]; reflexivity.
    - destruct Ha as [-> | [-> | (m & e & ->)]]; reflexivity. }
  pose proof (SFmul_self_shape (Prim2SF y) Hy) as Hyy.
  assert (Hxx : SFmul prec emax (Prim2SF x) (Prim2SF x) = S754_infinity false)
    by (rewrite Hx; apply SFmul_infinity_self).
  split; apply Prim2SF_inj; rewrite sqrt_spec, sum_of_squares_spec;
    change (Prim2SF infinity) with (S754_infinity false);
    unfold SF64sqrt, SF64add, SF64mul; destruct B; unfold fused.
  - rewrite Hsum; [reflexivity | left; exact Hxx | rewrite Hxx; tauto | exact Hyy].
  - now rewrite Hx, SFfma_infinity_self.
  - now rewrite Hxx, SFfma_self_infinity.
  - rewrite Hsum; [reflexivity | right; exact Hxx | exact Hyy | rewrite Hxx; tauto].
  - now rewrite Hxx, SFfma_self_infinity.
  - now rewrite Hx, SFfma_infinity_self.
Qed.

Lemma magnitude_of_infinity_is_infinity_witness :
  let B : Build := FusedFirst in
  Vertex_Absolute (mkVertex neg_infinity 4) = infinity /\
  Vertex_Absolute (mkVertex 4 neg_infinity) = infinity.
Proof.
  apply (@magnitude_of_infinity_is_infinity FusedFirst neg_infinity 4 true).
  - reflexivity.
  - vm_compute. discriminate.
Defined.

Section Accuracy.
Local Open Scope R_scope.

(** X7: on every build, when the two squares, their sum as the build
    evaluates it and the root are normal float64 numbers, the magnitude
    returned by [Vertex.Absolute], and by [Coordinate.Abs] on a receiver
    holding the same coordinates, is within relative error 3 * 2^-53 of the
    exact Euclidean norm of the pair. *)
Theorem magnitude_close_to_Euclidean_norm
    {B : Build} (m : mem) (l : loc) (x y : float64) :
  coordinates m !! l = Some (mkCoordinate x y) ->
  float64_normal (x * x) = true ->
  float64_normal (y * y) = true ->
  float64_normal (sum_of_squares x y) = true ->
  float64_normal (PrimFloat.sqrt (sum_of_squares x y)) = true ->
  Rabs (F2R (Vertex_Absolute (mkVertex x y)) - Euclidean_norm x y)
    <= 3 * bpow (-53) * Euclidean_norm x y /\
  exists r : float64,
    Coordinate_Abs (addr l) m = Ok r m /\
    Rabs (F2R r - Euclidean_norm x y) <= 3 * bpow (-53) * Euclidean_norm x y.
Proof.
  intros Hl Hx Hy Hs Hr.
  pose proof (magnitude_accuracy x y Hx Hy Hs Hr) as Hacc.
  split; [exact Hacc |].
  exists (PrimFloat.sqrt (sum_of_squares x y)). split; [| exact Hacc].
  unfold Coordinate_Abs, mbind, M_bind, deref. simpl. now rewrite Hl.
Qed.

Lemma magnitude_close_to_Euclidean_norm_witness :
  let B : Build := FusedFirst in
  let m := mkMem ∅ {[ 1%positive := mkCoordinate 1 1 ]} "" in
  Rabs (F2R (Vertex_Absolute (mkVertex 1 1)) - Euclidean_norm 1 1)
    <= 3 * bpow (-53) * Euclidean_norm 1 1 /\
  exists r : float64,
    Coordinate_Abs (addr 1%positive) m = Ok r m /\
    Rabs (F2R r - Euclidean_norm 1 1) <= 3 * bpow (-53) * Euclidean_norm 1 1.
Proof.
  apply (@magnitude_close_to_Euclidean_norm FusedFirst _ 1%positive 1 1); reflexivity.
Defined.

End Accuracy.



(** X9: scaling by -1 through a reference negates both coordinates
    exactly, and scaling by -1 and then by 1/(-1) restores the store
    exactly. *)
Theorem scaling_by_minus_one_twice_restores (m : mem) (l : loc) (v : Vertex) :
  vertices m !! l = Some v ->
  Vertex_ScaleWithPointer (addr l) (-1) m =
    Ok tt (mkMem (<[l := mkVertex (- Vertex_X v) (- Vertex_Y v)]> (vertices m))
                 (coordinates m) (stdout m)) /\
  (Vertex_ScaleWithPointer (addr l) (-1);; Vertex_ScaleWithPointer (addr l) (1 / (-1))) m
    = Ok tt m.
Proof.
  intros Hv.
  assert (H1 : Vertex_ScaleWithPointer (addr l) (-1) m =
    Ok tt (mkMem (<[l := mkVertex (- Vertex_X v) (- Vertex_Y v)]> (vertices m))
                 (coordinates m) (stdout m))).
  { now rewrite (Vertex_scale_in_place _ _ _ _ Hv), !mul_minus_one. }
  split; [exact H1 |].
  unfold mbind, M_bind. rewrite H1.
  change (1 / (-1)) with (-1).
  rewrite (Vertex_scale_in_place _ l (mkVertex (- Vertex_X v) (- Vertex_Y v)))
    by apply lookup_insert_eq.
  simpl. rewrite !mul_minus_one, !opp_involutive, insert_insert_eq.
  destruct v as [vx vy]. simpl. rewrite (insert_id _ _ _ Hv). now rewrite mem_eta.
Qed.

Lemma scaling_by_minus_one_twice_restores_witness :
  let m := mkMem {[ 1%positive := mkVertex 3 4 ]} ∅ "" in
  Vertex_ScaleWithPointer (addr 1%positive) (-1) m =
    Ok tt (mkMem (<[1%positive := mkVertex (- 3) (- 4)]> (vertices m))
                 (coordinates m) (stdout m)) /\
  (Vertex_ScaleWithPointer (addr 1%positive) (-1);;
   Vertex_ScaleWithPointer (addr 1%positive) (1 / (-1))) m = Ok tt m.
Proof.
  apply (scaling_by_minus_one_twice_restores _ 1%positive (mkVertex 3 4)). reflexivity.
Defined.

(** X10: the reference-receiver scaling variants have no nil guard: on a
    nil pointer each one panics with a nil dereference before changing
    anything, and what follows the call does not run. *)
Theorem scaling_through_nil_panics (f : float64) (m : mem) :
  Vertex_ScaleWithPointer nil f m = Panic NilDereference m /\
  ScaleWithPointerFunction nil f m = Panic NilDereference m /\
  Coordinate_Scale nil f m = Panic NilDereference m /\
  (forall (A : Type) (k : unit -> M A),
     (Coordinate_Scale nil f ≫= k) m = Panic NilDereference m).
Proof.
  split; [reflexivity |]. split; [reflexivity |]. split; [reflexivity |].
  intros A k. now apply panic_propagates.
Qed.



(** X12: [Describe] accepts every kind of [Absoluteness] value without a
    fault, the nil interface and the nil pointer included: it prints one
    line, [(<nil>, <nil>)] for the nil interface, [<nil>] with the pointer
    type for a nil [*Coordinate], the number with its type for a [MyFloat] or
    a [MyCustomFloat], and changes nothing else. *)
Theorem Describe_prints_value_and_type
    {B : Build} (fmt_float64 : float64 -> string) (m : mem) (f : float64) :
  let printed (text : string) :=
    Ok tt (mkMem (vertices m) (coordinates m) (stdout m +:+ text +:+ newline)) in
  Describe fmt_float64 None m = printed "(<nil>, <nil>)" /\
  Describe fmt_float64 (to_Absoluteness (nil : ptr Coordinate)) m
    = printed "(<nil>, *methods.Coordinate)" /\
  Describe fmt_float64 (to_Absoluteness (MkMyFloat f)) m
    = printed ("(" +:+ fmt_float64 f +:+ ", methods.MyFloat)") /\
  Describe fmt_float64 (to_Absoluteness (MkMyCustomFloat f)) m
    = printed ("(" +:+ fmt_float64 f +:+ ", methods.MyCustomFloat)").
Proof.
  unfold Describe, Printf_v_T, Absoluteness_operand, to_Absoluteness, write,
    mbind, M_bind, mret, M_ret.
  simpl. repeat split; do 2 f_equal; now rewrite ?append_assoc.
Qed.

(** X13: [Describe] of a non-nil [*Coordinate] prints the pointed-to
    coordinates as [&{X Y}] with the type [*methods.Coordinate], and leaves
    the cell as it was. *)
Theorem Describe_pointer_to_Coordinate
    {B : Build} (fmt_float64 : float64 -> string) (m : mem) (l : loc) (c : Coordinate) :
  coordinates m !! l = Some c ->
  Describe fmt_float64 (to_Absoluteness (addr l : ptr Coordinate)) m =
  Ok tt (mkMem (vertices m) (coordinates m)
           (stdout m +:+
            ("(" +:+ ("&" +:+ braces [fmt_float64 (Coordinate_X c); fmt_float64 (Coordinate_Y c)])
                 +:+ ", *methods.Coordinate)") +:+ newline)).
Proof.
  intros Hl.
  unfold Describe, Printf_v_T, Absoluteness_operand, to_Absoluteness, write,
    mbind, M_bind, mret, M_ret, deref.
  simpl. unfold mbind, M_bind, mret, M_ret, deref. simpl. rewrite Hl. simpl.
  do 2 f_equal. now rewrite !append_assoc.
Qed.

Lemma Describe_pointer_to_Coordinate_witness :
  let B : Build := FusedFirst in
  let m := mkMem ∅ {[ 1%positive := mkCoordinate (-3) (-4) ]} "" in
  let fmt_float64 (f : float64) := if (f =? -3)%float then "-3" else "-4" in
  Describe fmt_float64 (to_Absoluteness (addr 1%positive : ptr Coordinate)) m =
  Ok tt (mkMem (vertices m) (coordinates m)
           (stdout m +:+
            ("(" +:+ ("&" +:+ braces [fmt_float64 (-3); fmt_float64 (-4)])
                 +:+ ", *methods.Coordinate)") +:+ newline)).
Proof.
  apply (@Describe_pointer_to_Coordinate FusedFirst _ _ 1%positive (mkCoordinate (-3) (-4))).
  reflexivity.
Defined.

(** X14: [DescribeGeneric] prints every int in decimal with the label
    [int], every string as it is with the label [string], and the nil
    interface as [(<nil>, <nil>)]; each call returns and changes nothing but
    the output. *)
Theorem DescribeGeneric_prints_value_and_type
    (fmt_float64 : float64 -> string) (m : mem) (z : Z) (s : string) :
  let printed (text : string) :=
    Ok tt (mkMem (vertices m) (coordinates m) (stdout m +:+ text +:+ newline)) in
  DescribeGeneric fmt_float64 (to_any z) m = printed ("(" +:+ pretty z +:+ ", int)") /\
  DescribeGeneric fmt_float64 (to_any s) m = printed ("(" +:+ s +:+ ", string)") /\
  DescribeGeneric fmt_float64 None m = printed "(<nil>, <nil>)".
Proof.
  unfold DescribeGeneric, Printf_v_T, any_operand, to_any, write,
    mbind, M_bind, mret, M_ret.
  simpl. repeat split; do 2 f_equal; now rewrite ?append_assoc.
Qed.

(** X17: the command prints its title, runs the introduction under its
    heading and the interfaces demonstration under its heading, in that
    order, and ends without a panic, leaving no variable behind. *)
Theorem main_output {B : Build} (fmt_float64 : float64 -> string) :
  main fmt_float64 (mkMem ∅ ∅ "") =
  Ok tt (mkMem ∅ ∅ (foldl String.append "" [
    line ["Methods in Go:"];
    line [newline +:+ "Introduction-"];
    line ["Method call (v1):"; fmt_float64 5];
    line ["Function call (v1):"; fmt_float64 5];
    line ["Abs method call (v1):"; fmt_float64 10];
    line ["Value receiver method call (v1):";
          braces [fmt_float64 3; fmt_float64 4]; fmt_float64 5];
    line ["Pointer receiver method call (v1):";
          braces [fmt_float64 30; fmt_float64 40]; fmt_float64 50];
    line ["Function call with value (v1):";
          braces [fmt_float64 3; fmt_float64 4]; fmt_float64 5];
    line ["Function call with pointer (v1):";
          braces [fmt_float64 30; fmt_float64 40]; fmt_float64 50];
    line ["Function call with pointer (v2):"; braces [fmt_float64 6; fmt_float64 8]];
    line ["Function call with pointer (p2):"; braces [fmt_float64 12; fmt_float64 16]];
    line ["Pointer receiver method call (v2):"; braces [fmt_float64 24; fmt_float64 32]];
    line ["Pointer receiver method call (p2):"; braces [fmt_float64 48; fmt_float64 64]];
    line ["Function call with pointer (v3):"; braces [fmt_float64 3; fmt_float64 4]];
    line ["Function call with pointer (p3):"; braces [fmt_float64 3; fmt_float64 4]];
    line ["Value receiver method call (v3):"; braces [fmt_float64 3; fmt_float64 4]];
    line ["Value receiver method call (p3):"; braces [fmt_float64 3; fmt_float64 4]];
    line [newline +:+ "Interfaces-"];
    line ["Abs method called on MyFloat:"; fmt_float64 (PrimFloat.sqrt 2)];
    "(" +:+ fmt_float64 (- PrimFloat.sqrt 2) +:+ ", methods.MyFloat)" +:+ newline;
    line ["Abs method called on Coordinate:"; fmt_float64 5];
    "(" +:+ ("&" +:+ braces [fmt_float64 (-3); fmt_float64 (-4)])
        +:+ ", *methods.Coordinate)" +:+ newline;
    line ["(<nil>, *methods.Coordinate)"];
    line ["<nil>"];
    line ["(<nil>, <nil>)"];
    line ["(42, int)"];
    line ["(hello, string)"]])).
Proof. destruct B; vm_compute; reflexivity. Qed.
